(** * kindle-audify: OCR sentence reconstruction, chunk planning and MP3 merging

    A shallow embedding of [src/ts/TextToSpeechTask.ts] and of the
    [OcrTask] and [ConcatMp3Task] classes of [src/app.ts].

    - JavaScript strings are sequences of UTF-16 code units: [list N].
    - JavaScript numbers that carry coordinates are IEEE binary64 values:
      Rocq's primitive [float]; indices and counters are [nat].
    - A promise is modelled by the value it settles to ([outcome]); the
      calls made on the storage and the providers are recorded in a trace. *)

From Stdlib Require Import Ascii String DecimalString.
From Stdlib Require Import List Arith NArith ZArith Bool Lia Floats.
Import ListNotations.

Set Warnings "-inexact-float".
Abbreviation length := Datatypes.length.

(** ** JavaScript values *)

Module JS.

(** A string is its sequence of UTF-16 code units; [s.length] is [length s]. *)
Definition jsstring : Type := list N.

(** An ASCII literal as a JavaScript string. *)
Definition str (s : string) : jsstring :=
  map N_of_ascii (list_ascii_of_string s).

Fixpoint eqb (a b : jsstring) : bool :=
  match a, b with
  | [], [] => true
  | x :: a', y :: b' => N.eqb x y && eqb a' b'
  | _, _ => false
  end.

(** [s.startsWith(p)] *)
Fixpoint startsWith (s p : jsstring) {struct p} : bool :=
  match p, s with
  | [], _ => true
  | _ :: _, [] => false
  | y :: p', x :: s' => N.eqb x y && startsWith s' p'
  end.

(** [s.endsWith(p)] *)
Definition endsWith (s p : jsstring) : bool :=
  (length p <=? length s) && eqb (skipn (length s - length p) s) p.

(** [parts.join('')] *)
Definition join (parts : list jsstring) : jsstring := concat parts.

(** The scan of [s.split(sep)] for a non-empty separator: [piece] holds the
    code units read since the last match; [fuel] bounds the scan and is
    [length s] at the call. *)
Fixpoint split_scan (fuel : nat) (sep piece s : jsstring) : list jsstring :=
  match fuel with
  | O => [piece ++ s]
  | S fuel' =>
    match s with
    | [] => [piece]
    | c :: s' =>
      if startsWith s sep
      then piece :: split_scan fuel' sep [] (skipn (length sep) s)
      else split_scan fuel' sep (piece ++ [c]) s'
    end
  end.

(** [s.split(sep)] with a string separator and no limit.  With the empty
    separator the string is cut into its code units (so [''.split('')] is
    the empty array); otherwise it is cut at the successive leftmost
    occurrences of [sep]. *)
Definition split (s sep : jsstring) : list jsstring :=
  match sep with
  | [] => map (fun c => [c]) s
  | _ :: _ => split_scan (length s) sep [] s
  end.

(** [String(n)] for a non-negative integer [n]. *)
Definition ofNat (n : nat) : jsstring :=
  str (NilEmpty.string_of_uint (Nat.to_uint n)).

(** What a promise settles to. *)
Inductive outcome (A : Type) : Type :=
| Resolved (a : A)
| Rejected (reason : jsstring).
Arguments Resolved {A} a.
Arguments Rejected {A} reason.

(** [Promise.all]: the values in order, or the rejection of the first
    rejected member. *)
Fixpoint all {A : Type} (ps : list (outcome A)) : outcome (list A) :=
  match ps with
  | [] => Resolved []
  | Rejected e :: _ => Rejected e
  | Resolved a :: ps' =>
    match all ps' with
    | Resolved l => Resolved (a :: l)
    | Rejected e => Rejected e
    end
  end.

Lemma eqb_refl (a : jsstring) : eqb a a = true.
Proof.
  induction a as [|x a IH]; simpl; [reflexivity|].
  now rewrite N.eqb_refl, IH.
Qed.

Lemma eqb_eq (a b : jsstring) : eqb a b = true <-> a = b.
Proof.
  split; [|intros ->; apply eqb_refl].
  revert b; induction a as [|x a IH]; intros [|y b]; simpl; try easy.
  intros H; apply andb_true_iff in H as [Hx Hab].
  apply N.eqb_eq in Hx; apply IH in Hab; congruence.
Qed.

Lemma startsWith_app (s p : jsstring) :
  startsWith s p = true <-> exists r, s = p ++ r.
Proof.
  revert s; induction p as [|y p IH]; intros s; simpl.
  - split; [intros _; now exists s | reflexivity].
  - destruct s as [|x s].
    + split; [discriminate | intros [r Hr]; discriminate].
    + rewrite andb_true_iff, N.eqb_eq, IH. split.
      * intros [-> [r ->]]. now exists r.
      * intros [r Hr]. injection Hr as -> ->. split; [reflexivity | now exists r].
Qed.

Lemma endsWith_app (s p : jsstring) :
  endsWith s p = true <-> exists r, s = r ++ p.
Proof.
  unfold endsWith. rewrite andb_true_iff, Nat.leb_le, eqb_eq. split.
  - intros [_ H]. exists (firstn (length s - length p) s).
    rewrite <- (firstn_skipn (length s - length p) s) at 1. now rewrite H.
  - intros [r ->]. rewrite length_app. split; [lia|].
    replace (length r + length p - length p) with (length r + 0) by lia.
    rewrite skipn_app, Nat.add_0_r, skipn_all.
    replace (length r - length r) with 0 by lia. reflexivity.
Qed.

End JS.

(** ** The OCR result document *)

(** Modelled from the spec: the [OcrResult] type declarations used by
    [splitSentences] are not part of the sources; the shape is the one the
    spec gives for the provider's JSON document,
    [{ responses: [ { fullTextAnnotation?: { pages: [ { blocks: [
    { paragraphs: [ { words: [ { boundingBox: { normalizedVertices: [{x,y}] },
    symbols: [{text}] } ] } ] } ] } ] } } ] }]. *)
Module OcrResult.

Record Vertex := { x : float; y : float }.
Record BoundingPoly := { normalizedVertices : list Vertex }.
Record Symbol := { text : JS.jsstring }.
Record Word := { boundingBox : BoundingPoly; symbols : list Symbol }.
Record Paragraph := { words : list Word }.
Record Block := { paragraphs : list Paragraph }.
Record Page := { blocks : list Block }.
Record TextAnnotation := { pages : list Page }.
Record Response := { fullTextAnnotation : option TextAnnotation }.
Record Root := { responses : list Response }.

End OcrResult.

(** ** [Math.max] and [Math.min] on binary64 numbers *)

Module MathJS.

Open Scope float_scope.

(** [Math.max(...xs)]: [-Infinity] for no argument, [NaN] as soon as one
    argument is [NaN], and [+0] counts as larger than [-0]. *)
Definition max (xs : list float) : float :=
  fold_left
    (fun highest x =>
       if is_nan highest then highest
       else if is_nan x then x
       else if highest <? x then x
       else if is_zero x && is_zero highest && get_sign highest && negb (get_sign x) then x
       else highest)
    xs neg_infinity.

(** [Math.min(...xs)]: [+Infinity] for no argument, [NaN] as soon as one
    argument is [NaN], and [-0] counts as smaller than [+0]. *)
Definition min (xs : list float) : float :=
  fold_left
    (fun lowest x =>
       if is_nan lowest then lowest
       else if is_nan x then x
       else if x <? lowest then x
       else if is_zero x && is_zero lowest && get_sign x && negb (get_sign lowest) then x
       else lowest)
    xs infinity.

End MathJS.

(** ** [TextToSpeechTask] ([src/ts/TextToSpeechTask.ts]) *)

Module TextToSpeechTask.

Import JS.

Definition maxConcurrency : nat := 8.
Definition maxLength : nat := 5000.

(** The entries of the local array [words] of [splitSentences]. *)
Record WordLevelText := {
  boundingBox : OcrResult.BoundingPoly;
  text : jsstring
}.

(** The words of one page, as pushed by the nested [forEach] loops. *)
Definition wordsOfPage (b : OcrResult.Page) : list WordLevelText :=
  flat_map (fun c =>
    flat_map (fun d =>
      map (fun e =>
             {| boundingBox := OcrResult.boundingBox e;
                text := join (map OcrResult.text (OcrResult.symbols e)) |})
          (OcrResult.words d))
      (OcrResult.paragraphs c))
    (OcrResult.blocks b).

(** The array [pages] of [splitSentences]: responses without a
    [fullTextAnnotation] contribute nothing. *)
Definition collectPages (result : OcrResult.Root) : list (list WordLevelText) :=
  flat_map (fun a =>
    match OcrResult.fullTextAnnotation a with
    | Some t => map wordsOfPage (OcrResult.pages t)
    | None => []
    end)
    (OcrResult.responses result).

(** [w.boundingBox.normalizedVertices.map(p => p.y)] *)
Definition ysOf (w : WordLevelText) : list float :=
  map OcrResult.y (OcrResult.normalizedVertices (boundingBox w)).

(** [Math.max(...words.map(w => ...).flat())] *)
Definition pageYmax (words : list WordLevelText) : float :=
  MathJS.max (flat_map ysOf words).

(** The test that decides whether the delimiter follows the current word. *)
Definition boundary (ymax : float) (current next : WordLevelText) : bool :=
  forallb (fun y => (y <? ymax * 0.9)%float) (ysOf current)
  && (MathJS.min (ysOf next) <? MathJS.max (ysOf current))%float.

(** What iteration [i] of the [for] loop over one page pushes on [texts]:
    the push sits under [if (i < words.length-1)], that is, it happens when
    [words[i+1]] exists. *)
Definition pushAt (delimiter : jsstring) (ymax : float)
    (words : list WordLevelText) (i : nat) : list jsstring :=
  match nth_error words i, nth_error words (S i) with
  | Some current, Some next =>
    [ if boundary ymax current next then text current ++ delimiter
      else text current ]
  | _, _ => []
  end.

(** The strings one page adds to [texts]. *)
Definition pageTexts (delimiter : jsstring) (words : list WordLevelText)
    : list jsstring :=
  flat_map (pushAt delimiter (pageYmax words) words) (seq 0 (length words)).

(** The array [texts] after the loop over the pages. *)
Definition collectTexts (delimiter : jsstring) (result : OcrResult.Root)
    : list jsstring :=
  flat_map (pageTexts delimiter) (collectPages result).

Definition splitSentences (delimiter : jsstring) (result : OcrResult.Root)
    : list jsstring :=
  map (fun x => if endsWith x delimiter then x else x ++ delimiter)
      (filter (fun x => negb (eqb x []))
              (split (join (collectTexts delimiter result)) delimiter)).

(** The [for] loop of [takeChunk]; [n] is the number of indices left below
    [texts.length]. *)
Fixpoint takeChunk_for (texts : list jsstring) (n : nat) (text : jsstring)
    (i : nat) : jsstring * nat :=
  match n with
  | O => (text, length texts)
  | S n' =>
    match nth_error texts i with
    | None => (text, length texts)
    | Some t =>
      if maxLength <? length (text ++ t) then (text, i)
      else takeChunk_for texts n' (text ++ t) (S i)
    end
  end.

Definition takeChunk (texts : list jsstring) (index : nat) : jsstring * nat :=
  takeChunk_for texts (length texts - index) [] index.

Definition getOutputPath (prefix : jsstring) (num : nat) : jsstring :=
  let suffixString :=
    (if num <? 10 then str "00" else if num <? 100 then str "0" else [])
    ++ ofNat num in
  prefix ++ str "/output-" ++ suffixString ++ str ".mp3".

(** One pass of the [while] loop of [run] pushes one job: the chunk text and
    the output path its closure captures. *)
Record Job := { jobText : jsstring; jobPath : jsstring }.

(** The [while (i < texts.length)] loop of [run].  [fuel] bounds the number
    of tests of the loop condition; [None] means the loop is still running
    when the fuel is spent. *)
Fixpoint planJobs (fuel : nat) (texts : list jsstring) (outputPrefix : jsstring)
    (num i : nat) : option (list Job) :=
  match fuel with
  | O => None
  | S fuel' =>
    if i <? length texts then
      let chunk := takeChunk texts i in
      let outputPath := getOutputPath outputPrefix (S num) in
      option_map (cons {| jobText := fst chunk; jobPath := outputPath |})
                 (planJobs fuel' texts outputPrefix (S num) (snd chunk))
    else Some []
  end.

(** The collaborators of [run].  [speech outputPath count] is what the
    [count]-th call [ttsRequest(_, outputPath)] settles to (the synthesis
    call followed by the write to storage). *)
Record Env := {
  listFiles : jsstring -> outcome (list jsstring);
  readOcrJson : jsstring -> outcome OcrResult.Root;
  speech : jsstring -> nat -> outcome unit
}.

(** A call of [ttsRequest], as recorded in the trace. *)
Record TtsCall := { callText : jsstring; callPath : jsstring }.

Definition ttsRequest (env : Env) (txt outputPath : jsstring) (count : nat)
    : list TtsCall * outcome jsstring :=
  ([ {| callText := txt; callPath := outputPath |} ],
   match speech env outputPath count with
   | Resolved _ => Resolved outputPath
   | Rejected e => Rejected e
   end).

(** What the function handed to [promiseRetry] settles to: a value or an
    error of its own, or a rejection raised through [retry]. *)
Inductive attempt : Type :=
| Settled (o : outcome jsstring)
| Retry (err : jsstring).

(** The package [promise-retry] with its default options ([retries: 10]):
    the function is called with the attempt number, from 1; a rejection
    raised through [retry] starts the next attempt while retries are left
    and otherwise rejects with the retried error. *)
Fixpoint promiseRetry_from (retriesLeft : nat)
    (fn : nat -> list TtsCall * attempt) (count : nat)
    : list TtsCall * outcome jsstring :=
  let (calls, r) := fn count in
  match r with
  | Settled o => (calls, o)
  | Retry err =>
    match retriesLeft with
    | O => (calls, Rejected err)
    | S k =>
      let (calls', o) := promiseRetry_from k fn (S count) in
      (calls ++ calls', o)
    end
  end.

Definition promiseRetry (fn : nat -> list TtsCall * attempt)
    : list TtsCall * outcome jsstring :=
  promiseRetry_from 10 fn 1.

(** The closure handed to [limit] for one chunk. *)
Definition runJob (env : Env) (existFiles : list jsstring) (j : Job)
    : list TtsCall * outcome jsstring :=
  let outputPath := jobPath j in
  if existsb (fun f => endsWith f outputPath) existFiles then
    ([], Resolved outputPath)
  else
    promiseRetry (fun count =>
      if 5 <? count then
        ([], Settled (Rejected
                (str "gave up after " ++ ofNat (count - 1) ++ str " retry")))
      else
        match ttsRequest env (jobText j) outputPath count with
        | (calls, Resolved p) => (calls, Settled (Resolved p))
        | (calls, Rejected e) => (calls, Retry e)
        end).

Definition readOcrOuputJson (delimiter : jsstring) (env : Env)
    (gcsPath : jsstring) : outcome (list jsstring) :=
  match readOcrJson env gcsPath with
  | Resolved obj => Resolved (splitSentences delimiter obj)
  | Rejected e => Rejected e
  end.

(** [run]: [None] when the chunking loop does not come to an end within
    [fuel] tests of its condition; otherwise the [ttsRequest] calls of the
    jobs (job by job, in submission order) and what [Promise.all] settles
    to. *)
Definition run (delimiter : jsstring) (env : Env) (fuel : nat)
    (gcsPaths : list jsstring) (outputPrefix : jsstring)
    : option (list TtsCall * outcome (list jsstring)) :=
  match listFiles env outputPrefix with
  | Rejected e => Some ([], Rejected e)
  | Resolved existFiles =>
    match all (map (readOcrOuputJson delimiter env) gcsPaths) with
    | Rejected e => Some ([], Rejected e)
    | Resolved textsList =>
      let texts := concat textsList in
      match planJobs fuel texts outputPrefix 0 0 with
      | None => None
      | Some jobs =>
        let results := map (runJob env existFiles) jobs in
        Some (flat_map fst results, all (map snd results))
      end
    end
  end.

End TextToSpeechTask.

(** ** The chunk planner: [takeChunk] and the chunking loop of [run] *)

Module ChunkPlanner.

Import JS TextToSpeechTask.

(** The fragments [texts[i], ..., texts[j-1]], concatenated. *)
Definition fragmentRange (texts : list jsstring) (i j : nat) : jsstring :=
  concat (firstn (j - i) (skipn i texts)).

(** [Chunked texts i jobs]: the jobs cut [texts] from index [i] to its end
    into consecutive, non-empty, in-order ranges of fragments. *)
Inductive Chunked (texts : list jsstring) : nat -> list Job -> Prop :=
| Chunked_end : Chunked texts (length texts) []
| Chunked_cut i j job jobs :
    i < j -> j <= length texts ->
    jobText job = fragmentRange texts i j ->
    Chunked texts j jobs ->
    Chunked texts i (job :: jobs).

(** A fragment list with a fragment of 6000 code units at index 1. *)
Definition oversized : list jsstring := [str "ab."; repeat 97%N (60 * 100)].

Lemma skipn_nth_error (A : Type) (l : list A) (i : nat) (a : A) :
  nth_error l i = Some a -> skipn i l = a :: skipn (S i) l.
Proof.
  revert i; induction l as [|b l IH]; intros [|i] H; simpl in *; try discriminate.
  - now injection H as ->.
  - now apply IH.
Qed.

Lemma takeChunk_for_range (texts : list jsstring) (n : nat) :
  forall (text : jsstring) (i : nat),
    n = length texts - i -> i <= length texts ->
    i <= snd (takeChunk_for texts n text i) <= length texts /\
    fst (takeChunk_for texts n text i)
    = text ++ fragmentRange texts i (snd (takeChunk_for texts n text i)).
Proof.
  unfold fragmentRange.
  induction n as [|n IH]; intros text i Hn Hi; simpl.
  - split; [lia|].
    replace (length texts - i) with 0 by lia. simpl. now rewrite app_nil_r.
  - destruct (nth_error texts i) as [t|] eqn:Ht.
    2:{ apply nth_error_None in Ht. lia. }
    destruct (maxLength <? length (text ++ t)); simpl.
    + split; [lia|]. rewrite Nat.sub_diag. simpl. now rewrite app_nil_r.
    + destruct (IH (text ++ t) (S i)) as [Hb Hf]; [lia | lia |].
      split; [lia|]. rewrite Hf.
      rewrite (skipn_nth_error _ _ _ _ Ht).
      replace (snd (takeChunk_for texts n (text ++ t) (S i)) - i)
        with (S (snd (takeChunk_for texts n (text ++ t) (S i)) - S i)) by lia.
      simpl. now rewrite app_assoc.
Qed.

Lemma takeChunk_range (texts : list jsstring) (i : nat) :
  i <= length texts ->
  i <= snd (takeChunk texts i) <= length texts /\
  fst (takeChunk texts i) = fragmentRange texts i (snd (takeChunk texts i)).
Proof.
  intros Hi. unfold takeChunk.
  destruct (takeChunk_for_range texts (length texts - i) [] i eq_refl Hi) as [Hb Hf].
  split; [exact Hb | exact Hf].
Qed.

(** A fragment that alone exceeds [maxLength] stops [takeChunk] at once,
    with nothing taken. *)
Lemma takeChunk_oversized (texts : list jsstring) (i : nat) (t : jsstring) :
  nth_error texts i = Some t -> maxLength < length t ->
  takeChunk texts i = ([], i).
Proof.
  intros Ht Hlen. unfold takeChunk.
  assert (Hi : i < length texts) by (apply nth_error_Some; congruence).
  destruct (length texts - i) as [|n] eqn:Hn; [lia|].
  simpl. rewrite Ht.
  apply Nat.ltb_lt in Hlen. now rewrite Hlen.
Qed.

(** A first fragment within [maxLength] is always taken. *)
Lemma takeChunk_advances (texts : list jsstring) (i : nat) (t : jsstring) :
  nth_error texts i = Some t -> length t <= maxLength ->
  i < snd (takeChunk texts i).
Proof.
  intros Ht Hlen. unfold takeChunk.
  assert (Hi : i < length texts) by (apply nth_error_Some; congruence).
  destruct (length texts - i) as [|n] eqn:Hn; [lia|].
  simpl. rewrite Ht.
  destruct (maxLength <? length t) eqn:Hlt.
  - apply Nat.ltb_lt in Hlt. lia.
  - destruct (takeChunk_for_range texts n t (S i)) as [Hb _]; lia.
Qed.

(** No chunk reaches past a fragment that alone exceeds [maxLength]. *)
Lemma takeChunk_for_blocked (texts : list jsstring) (k : nat) (t : jsstring) :
  nth_error texts k = Some t -> maxLength < length t ->
  forall (n : nat) (text : jsstring) (i : nat),
    n = length texts - i -> i <= k ->
    snd (takeChunk_for texts n text i) <= k.
Proof.
  intros Ht Hlen.
  assert (Hk : k < length texts) by (apply nth_error_Some; congruence).
  induction n as [|n IH]; intros text i Hn Hi; [lia|]. simpl.
  destruct (nth_error texts i) as [u|] eqn:Hu.
  2:{ apply nth_error_None in Hu. lia. }
  destruct (maxLength <? length (text ++ u)) eqn:Hlt; simpl; [exact Hi|].
  destruct (Nat.eq_dec i k) as [->|Hne].
  - rewrite Ht in Hu. injection Hu as <-.
    apply Nat.ltb_ge in Hlt. rewrite length_app in Hlt. lia.
  - apply IH; lia.
Qed.

Lemma takeChunk_blocked (texts : list jsstring) (k i : nat) (t : jsstring) :
  nth_error texts k = Some t -> maxLength < length t -> i <= k ->
  snd (takeChunk texts i) <= k.
Proof.
  intros Ht Hlen Hi. unfold takeChunk.
  now apply (takeChunk_for_blocked texts k t Ht Hlen).
Qed.

(** The chunking loop never leaves the indices up to such a fragment. *)
Lemma planJobs_blocked (texts : list jsstring) (k : nat) (t : jsstring) :
  nth_error texts k = Some t -> maxLength < length t ->
  forall (fuel : nat) (outputPrefix : jsstring) (num i : nat),
    i <= k -> planJobs fuel texts outputPrefix num i = None.
Proof.
  intros Ht Hlen.
  assert (Hk : k < length texts) by (apply nth_error_Some; congruence).
  induction fuel as [|fuel IH]; intros outputPrefix num i Hi; [reflexivity|].
  simpl. replace (i <? length texts) with true by (symmetry; apply Nat.ltb_lt; lia).
  rewrite IH; [reflexivity|]. now apply (takeChunk_blocked texts k i t Ht Hlen).
Qed.

(** When every fragment is within [maxLength], the loop ends after at most
    one pass per fragment and its jobs cut the fragments into consecutive
    ranges. *)
Lemma planJobs_chunked (texts : list jsstring) (outputPrefix : jsstring) :
  Forall (fun t => length t <= maxLength) texts ->
  forall (m i num : nat),
    length texts - i <= m -> i <= length texts ->
    exists jobs,
      planJobs (S m) texts outputPrefix num i = Some jobs /\
      Chunked texts i jobs.
Proof.
  intros Hall. induction m as [|m IH]; intros i num Hm Hi.
  - exists []. assert (i = length texts) as -> by lia.
    simpl. rewrite Nat.ltb_irrefl. split; [reflexivity | constructor].
  - destruct (Nat.ltb_spec i (length texts)) as [Hlt|Hge].
    + destruct (nth_error texts i) as [t|] eqn:Ht.
      2:{ apply nth_error_None in Ht. lia. }
      assert (Hlen : length t <= maxLength).
      { rewrite Forall_forall in Hall. apply Hall. eapply nth_error_In; eauto. }
      pose proof (takeChunk_advances texts i t Ht Hlen) as Hadv.
      destruct (takeChunk_range texts i) as [Hb Hf]; [lia|].
      destruct (IH (snd (takeChunk texts i)) (S num)) as [jobs [Hjobs Hch]]; [lia | lia |].
      eexists. split.
      * change (planJobs (S (S m)) texts outputPrefix num i)
          with (if i <? length texts then
                  option_map (cons {| jobText := fst (takeChunk texts i);
                                      jobPath := getOutputPath outputPrefix (S num) |})
                    (planJobs (S m) texts outputPrefix (S num) (snd (takeChunk texts i)))
                else Some []).
        apply Nat.ltb_lt in Hlt. rewrite Hlt, Hjobs. reflexivity.
      * apply Chunked_cut with (j := snd (takeChunk texts i));
          [lia | lia | exact Hf | exact Hch].
    + exists []. assert (i = length texts) as -> by lia.
      simpl. rewrite Nat.ltb_irrefl. split; [reflexivity | constructor].
Qed.

(** Consecutive ranges concatenate to the fragments they cover. *)
Lemma Chunked_concat (texts : list jsstring) (i : nat) (jobs : list Job) :
  Chunked texts i jobs ->
  concat (map jobText jobs) = concat (skipn i texts).
Proof.
  induction 1 as [|i j job jobs Hij Hj Hjob _ IH]; simpl.
  - now rewrite skipn_all.
  - rewrite IH, Hjob. unfold fragmentRange.
    rewrite <- concat_app. f_equal.
    rewrite <- (firstn_skipn (j - i) (skipn i texts)) at 2.
    rewrite skipn_skipn. replace (j - i + i) with j by lia. reflexivity.
Qed.

(** C2 (the code at the spec's scenario): for the single fragment of 6000
    code units, [takeChunk] returns the empty chunk and the start index,
    not the fragment. *)
Example takeChunk_one_fragment_of_6000 :
  length (repeat 97%N (60 * 100)) = 60 * 100 /\
  takeChunk [repeat 97%N (60 * 100)] 0 = ([], 0) /\
  fst (takeChunk [repeat 97%N (60 * 100)] 0) <> repeat 97%N (60 * 100).
Proof.
  split; [apply repeat_length|].
  assert (H : takeChunk [repeat 97%N (60 * 100)] 0 = ([], 0)).
  { apply takeChunk_oversized with (t := repeat 97%N (60 * 100)); [reflexivity|].
    rewrite repeat_length. apply Nat.ltb_lt. vm_compute. reflexivity. }
  split; [exact H|]. rewrite H. simpl. discriminate.
Qed.

(** C3 (the code on a fragment list with an oversized fragment): the first
    chunk is cut, then the iteration stays at index 1 for ever, so no chunk
    list is ever produced. *)
Example chunking_never_ends_on_oversized :
  takeChunk oversized 0 = (str "ab.", 1) /\
  takeChunk oversized 1 = ([], 1) /\
  forall (fuel : nat) (outputPrefix : jsstring),
    planJobs fuel oversized outputPrefix 0 0 = None.
Proof.
  assert (Hlen : maxLength < length (repeat 97%N (60 * 100))).
  { rewrite repeat_length. apply Nat.ltb_lt. vm_compute. reflexivity. }
  split; [vm_compute; reflexivity|].
  split; [apply takeChunk_oversized with (t := repeat 97%N (60 * 100));
          [reflexivity | exact Hlen]|].
  intros fuel outputPrefix.
  apply planJobs_blocked with (k := 1) (t := repeat 97%N (60 * 100));
    [reflexivity | exact Hlen | lia].
Qed.

(** Chunk coverage when no fragment exceeds [maxLength]: the chunking loop
    ends within one pass per fragment, its chunks are consecutive ranges of
    fragments, and their concatenation is the concatenation of the
    fragments. *)
Theorem chunks_cover_bounded_fragments (texts : list jsstring)
    (outputPrefix : jsstring) :
  Forall (fun t => length t <= maxLength) texts ->
  exists jobs,
    planJobs (S (length texts)) texts outputPrefix 0 0 = Some jobs /\
    Chunked texts 0 jobs /\
    concat (map jobText jobs) = concat texts.
Proof.
  intros Hall.
  destruct (planJobs_chunked texts outputPrefix Hall (length texts) 0 0)
    as [jobs [Hjobs Hch]]; [lia | lia |].
  exists jobs. split; [exact Hjobs|]. split; [exact Hch|].
  now rewrite (Chunked_concat texts 0 jobs Hch).
Qed.

Lemma chunks_cover_bounded_fragments_witness :
  Forall (fun t => length t <= maxLength) [str "ab."; str "cd."] /\
  exists jobs,
    planJobs 3 [str "ab."; str "cd."] (str "mp3/b") 0 0 = Some jobs /\
    Chunked [str "ab."; str "cd."] 0 jobs /\
    concat (map jobText jobs) = concat [str "ab."; str "cd."].
Proof.
  assert (H : Forall (fun t => length t <= maxLength) [str "ab."; str "cd."]).
  { repeat constructor; apply Nat.leb_le; vm_compute; reflexivity. }
  split; [exact H|].
  exact (chunks_cover_bounded_fragments [str "ab."; str "cd."] (str "mp3/b") H).
Defined.

(** C10: at an index [i] inside the list, [takeChunk] moves past [i] exactly
    when [texts[i]] has at most [maxLength] code units; when [texts[i]] is
    longer it returns the empty string and [i] itself, and the chunking loop
    of [run], started at or before [i], is still running after any number
    of passes: [run] does not return on a fragment list that holds such a
    fragment. *)
Theorem takeChunk_progress_iff (texts : list jsstring) (i : nat) :
  i < length texts ->
  maxLength = 5000 /\
  (i < snd (takeChunk texts i) <-> length (nth i texts []) <= maxLength) /\
  (maxLength < length (nth i texts []) ->
   takeChunk texts i = ([], i) /\
   (forall (fuel : nat) (outputPrefix : jsstring) (num start : nat),
      start <= i -> planJobs fuel texts outputPrefix num start = None) /\
   forall (fuel : nat) (delimiter : jsstring) (env : Env)
          (gcsPaths : list jsstring) (outputPrefix : jsstring)
          (existFiles : list jsstring) (textsList : list (list jsstring)),
     listFiles env outputPrefix = Resolved existFiles ->
     all (map (readOcrOuputJson delimiter env) gcsPaths) = Resolved textsList ->
     concat textsList = texts ->
     run delimiter env fuel gcsPaths outputPrefix = None).
Proof.
  intros Hi. split; [reflexivity|].
  destruct (nth_error texts i) as [t|] eqn:Ht.
  2:{ apply nth_error_None in Ht. lia. }
  rewrite (nth_error_nth texts i [] Ht).
  split; [split|].
  - intros Hadv. destruct (Nat.le_gt_cases (length t) maxLength) as [H|H]; [exact H|].
    rewrite (takeChunk_oversized texts i t Ht H) in Hadv. simpl in Hadv. lia.
  - apply takeChunk_advances; assumption.
  - intros Hlen. split; [now apply takeChunk_oversized with (t := t)|].
    split.
    + intros fuel outputPrefix num start Hstart.
      now apply planJobs_blocked with (k := i) (t := t).
    + intros fuel delimiter env gcsPaths outputPrefix existFiles textsList
             Hl Hr Htexts.
      unfold run. rewrite Hl, Hr, Htexts.
      rewrite (planJobs_blocked texts i t Ht Hlen fuel outputPrefix 0 0); [reflexivity | lia].
Qed.

Lemma takeChunk_progress_iff_witness :
  1 < length oversized /\
  maxLength < length (nth 1 oversized []) /\
  takeChunk oversized 1 = ([], 1) /\
  planJobs 100 oversized (str "mp3/b") 0 0 = None.
Proof.
  assert (Hi : 1 < length oversized) by (simpl; lia).
  assert (Hlen : maxLength < length (nth 1 oversized [])).
  { apply Nat.ltb_lt. vm_compute. reflexivity. }
  destruct (takeChunk_progress_iff oversized 1 Hi) as [_ [_ H]].
  destruct (H Hlen) as [Htake [Hloop _]].
  split; [exact Hi|]. split; [exact Hlen|]. split; [exact Htake|].
  apply Hloop. lia.
Defined.

End ChunkPlanner.

(** ** The sentence segmenter: [splitSentences] *)

Module SentenceSegmenter.

Import JS TextToSpeechTask.

(** The loop over one page, read along the list of words: a word followed
    by another one pushes its text, the last word pushes nothing. *)
Fixpoint pushes (delimiter : jsstring) (ymax : float)
    (words : list WordLevelText) : list jsstring :=
  match words with
  | [] => []
  | current :: rest =>
    match rest with
    | [] => []
    | next :: _ =>
      (if boundary ymax current next then text current ++ delimiter
       else text current) :: pushes delimiter ymax rest
    end
  end.

(** "The current word lies above the last line band and the next word
    overlaps it vertically", on the page whose largest y is [ymax]; the
    product and the comparisons are those of binary64 numbers. *)
Definition fires (ymax : float) (current next : WordLevelText) : Prop :=
  (forall y, In y (ysOf current) -> (y <? ymax * 0.9)%float = true) /\
  (MathJS.min (ysOf next) <? MathJS.max (ysOf current))%float = true.

(** No occurrence of [sep] starts inside [piece] when [piece] is followed
    by [s]. *)
Definition matchFree (sep piece s : jsstring) : Prop :=
  forall k, k < length piece -> startsWith (skipn k (piece ++ s)) sep = false.

(** A word with the given text whose box spans the y range [top, bottom]. *)
Definition wordAt (txt : string) (top bottom : float) : OcrResult.Word :=
  {| OcrResult.boundingBox :=
       {| OcrResult.normalizedVertices :=
            [ {| OcrResult.x := 0.1; OcrResult.y := top |};
              {| OcrResult.x := 0.2; OcrResult.y := top |};
              {| OcrResult.x := 0.2; OcrResult.y := bottom |};
              {| OcrResult.x := 0.1; OcrResult.y := bottom |} ] |};
     OcrResult.symbols :=
       map (fun c => {| OcrResult.text := [N_of_ascii c] |})
           (list_ascii_of_string txt) |}.

(** An OCR document of one response holding the given pages, each page one
    block of one paragraph. *)
Definition document (pages : list (list OcrResult.Word)) : OcrResult.Root :=
  {| OcrResult.responses :=
       [ {| OcrResult.fullTextAnnotation :=
              Some {| OcrResult.pages :=
                        map (fun ws =>
                               {| OcrResult.blocks :=
                                    [ {| OcrResult.paragraphs :=
                                           [ {| OcrResult.words := ws |} ] |} ] |})
                            pages |} |} ] |}.

(** One page: two words on overlapping lines near the top and a third word
    near the bottom. *)
Definition threeWords : OcrResult.Root :=
  document [[wordAt "Hello" 0.10 0.12; wordAt "World" 0.11 0.13;
             wordAt "End" 0.80 0.82]].

(** One page with a single word. *)
Definition oneWord : OcrResult.Root :=
  document [[wordAt "Hello" 0.10 0.12]].

Lemma pushAt_cons (delimiter : jsstring) (ymax : float) (w : WordLevelText)
    (ws : list WordLevelText) (j : nat) :
  pushAt delimiter ymax (w :: ws) (S j) = pushAt delimiter ymax ws j.
Proof. reflexivity. Qed.

Lemma flat_map_pushAt (delimiter : jsstring) (ymax : float)
    (words : list WordLevelText) :
  flat_map (pushAt delimiter ymax words) (seq 0 (length words))
  = pushes delimiter ymax words.
Proof.
  induction words as [|w ws IH]; [reflexivity|].
  cbn [length seq flat_map].
  rewrite <- seq_shift, flat_map_concat_map, map_map.
  rewrite (map_ext _ (pushAt delimiter ymax ws) (pushAt_cons delimiter ymax w ws)).
  rewrite <- flat_map_concat_map, IH.
  destruct ws as [|next ws']; reflexivity.
Qed.

Lemma pageTexts_pushes (delimiter : jsstring) (words : list WordLevelText) :
  pageTexts delimiter words = pushes delimiter (pageYmax words) words.
Proof. apply flat_map_pushAt. Qed.


Lemma pushes_nth (delimiter : jsstring) (ymax : float)
    (words : list WordLevelText) :
  forall (i : nat) (current next : WordLevelText),
    nth_error words i = Some current -> nth_error words (S i) = Some next ->
    nth_error (pushes delimiter ymax words) i
    = Some (if boundary ymax current next then text current ++ delimiter
            else text current).
Proof.
  induction words as [|w ws IH]; intros i current next Hc Hn.
  - destruct i; discriminate.
  - destruct ws as [|w' ws'].
    + destruct i; discriminate.
    + destruct i as [|i].
      * simpl in Hc, Hn. injection Hc as ->. injection Hn as ->. reflexivity.
      * change (nth_error (pushes delimiter ymax (w' :: ws')) i
                = Some (if boundary ymax current next
                        then text current ++ delimiter else text current)).
        apply IH; assumption.
Qed.

Lemma boundary_fires (ymax : float) (current next : WordLevelText) :
  boundary ymax current next = true <-> fires ymax current next.
Proof.
  unfold boundary, fires. rewrite andb_true_iff, forallb_forall. reflexivity.
Qed.

Lemma skipn_app_length (A : Type) (l r : list A) :
  skipn (length l) (l ++ r) = r.
Proof.
  rewrite skipn_app, skipn_all, Nat.sub_diag. reflexivity.
Qed.

(** A piece inside which no separator starts does not end with one. *)
Lemma matchFree_endsWith (sep piece s : jsstring) :
  sep <> [] -> matchFree sep piece s -> endsWith piece sep = false.
Proof.
  intros Hsep Hfree. destruct (endsWith piece sep) eqn:He; [|reflexivity].
  apply endsWith_app in He as [r ->].
  specialize (Hfree (length r)).
  rewrite <- app_assoc, skipn_app_length in Hfree.
  assert (Ht : startsWith (sep ++ s) sep = true)
    by (apply startsWith_app; now exists s).
  rewrite Hfree in Ht; [discriminate|].
  rewrite length_app. destruct sep; [congruence | simpl; lia].
Qed.

Lemma matchFree_step (sep piece s : jsstring) (c : N) :
  matchFree sep piece (c :: s) -> startsWith (c :: s) sep = false ->
  matchFree sep (piece ++ [c]) s.
Proof.
  intros Hfree Hno k Hk. rewrite <- app_assoc. simpl.
  rewrite length_app in Hk. simpl in Hk.
  destruct (Nat.eq_dec k (length piece)) as [->|Hne].
  - now rewrite skipn_app_length.
  - apply Hfree. lia.
Qed.

(** The pieces cut by a non-empty separator never end with it. *)
Lemma split_scan_pieces (sep : jsstring) :
  sep <> [] ->
  forall (fuel : nat) (piece s : jsstring),
    length s <= fuel -> matchFree sep piece s ->
    Forall (fun p => endsWith p sep = false) (split_scan fuel sep piece s).
Proof.
  intros Hsep. induction fuel as [|fuel IH]; intros piece s Hlen Hfree.
  - destruct s; [|simpl in Hlen; lia]. simpl. rewrite app_nil_r.
    constructor; [|constructor]. now apply matchFree_endsWith with (s := []).
  - destruct s as [|c s'].
    + simpl. constructor; [|constructor]. now apply matchFree_endsWith with (s := []).
    + cbn [split_scan]. destruct (startsWith (c :: s') sep) eqn:Hm.
      * constructor; [now apply matchFree_endsWith with (s := c :: s')|].
        apply startsWith_app in Hm as [r Hr]. rewrite Hr, skipn_app_length.
        apply IH.
        -- assert (Hl : length (c :: s') = length (sep ++ r)) by now rewrite Hr.
           rewrite length_app in Hl. simpl in Hl, Hlen.
           destruct sep; [congruence | simpl in Hl; lia].
        -- intros k Hk. simpl in Hk. lia.
      * apply IH; [simpl in Hlen; lia | now apply matchFree_step].
Qed.

Lemma split_pieces (s sep : jsstring) :
  sep <> [] -> Forall (fun p => endsWith p sep = false) (split s sep).
Proof.
  intros Hsep. unfold split. destruct sep as [|d sep']; [congruence|].
  apply split_scan_pieces; [exact Hsep | lia |].
  intros k Hk. simpl in Hk. lia.
Qed.

(** C5: every fragment returned by [splitSentences] is non-empty and ends
    with the delimiter; the fragments are the non-empty pieces of the split,
    each with the delimiter appended. *)
Theorem splitSentences_fragments (delimiter : jsstring)
    (result : OcrResult.Root) :
  Forall (fun f => f <> [] /\ endsWith f delimiter = true)
         (splitSentences delimiter result) /\
  splitSentences delimiter result
  = map (fun x => x ++ delimiter)
        (filter (fun x => negb (eqb x []))
                (split (join (collectTexts delimiter result)) delimiter)).
Proof.
  unfold splitSentences.
  set (pieces := split (join (collectTexts delimiter result)) delimiter).
  assert (Hmap : map (fun x => if endsWith x delimiter then x else x ++ delimiter)
                     (filter (fun x => negb (eqb x [])) pieces)
                 = map (fun x => x ++ delimiter)
                       (filter (fun x => negb (eqb x [])) pieces)).
  { apply map_ext_in. intros x Hx. apply filter_In in Hx as [Hx _].
    destruct delimiter as [|d delimiter'].
    - now rewrite app_nil_r; destruct (endsWith x []).
    - assert (Hp : Forall (fun p => endsWith p (d :: delimiter') = false) pieces)
        by (apply split_pieces; discriminate).
      rewrite Forall_forall in Hp. now rewrite (Hp x Hx). }
  split; [|exact Hmap].
  rewrite Hmap. apply Forall_forall. intros f Hf.
  apply in_map_iff in Hf as [x [<- Hx]].
  apply filter_In in Hx as [_ Hne].
  split.
  - destruct x; [discriminate Hne | discriminate].
  - apply endsWith_app. now exists x.
Qed.

(** For a word [i] that has a successor on its page, the string pushed for
    it is its text followed by the delimiter when the test [fires], and its
    bare text otherwise. *)
Lemma delimiter_after_word_iff (delimiter : jsstring)
    (words : list WordLevelText) (i : nat) (current next : WordLevelText) :
  nth_error words i = Some current ->
  nth_error words (S i) = Some next ->
  (fires (pageYmax words) current next ->
   nth_error (pageTexts delimiter words) i = Some (text current ++ delimiter)) /\
  (~ fires (pageYmax words) current next ->
   nth_error (pageTexts delimiter words) i = Some (text current)) /\
  (delimiter <> [] ->
   (nth_error (pageTexts delimiter words) i = Some (text current ++ delimiter)
    <-> fires (pageYmax words) current next)).
Proof.
  intros Hc Hn.
  rewrite pageTexts_pushes, (pushes_nth delimiter (pageYmax words) words i current next Hc Hn).
  pose proof (boundary_fires (pageYmax words) current next) as Hb.
  destruct (boundary (pageYmax words) current next).
  - assert (Hf : fires (pageYmax words) current next) by now apply Hb.
    split; [reflexivity|]. split; [intros Hnot; contradiction|].
    intros _. split; [intros _; exact Hf | reflexivity].
  - assert (Hf : ~ fires (pageYmax words) current next)
      by (intros Hf; apply Hb in Hf; discriminate).
    split; [intros H; contradiction|]. split; [reflexivity|].
    intros Hd. split; [|intros H; contradiction].
    intros H. injection H as H.
    rewrite <- (app_nil_r (text current)) in H at 1.
    apply app_inv_head in H. congruence.
Qed.

(** C1 (the code on a page of three words and on a page of one word): the
    text stream holds the first two words only, the last word of the page
    is never pushed, and a page of a single word yields no fragment. *)
Example splitSentences_loses_last_word :
  map (map text) (collectPages threeWords)
  = [[str "Hello"; str "World"; str "End"]] /\
  collectTexts (str ".") threeWords = [str "Hello."; str "World"] /\
  splitSentences (str ".") threeWords = [str "Hello."; str "World."] /\
  map (map text) (collectPages oneWord) = [[str "Hello"]] /\
  splitSentences (str ".") oneWord = [].
Proof. repeat split; vm_compute; reflexivity. Qed.


Lemma delimiter_after_word_iff_witness :
  let words := nth 0 (collectPages threeWords) [] in
  let hello := nth 0 words {| boundingBox := {| OcrResult.normalizedVertices := [] |}; text := [] |} in
  let world := nth 1 words hello in
  nth_error words 0 = Some hello /\
  nth_error words 1 = Some world /\
  fires (pageYmax words) hello world /\
  nth_error (pageTexts (str ".") words) 0 = Some (str "Hello.").
Proof.
  intros words hello world.
  assert (Hc : nth_error words 0 = Some hello) by reflexivity.
  assert (Hn : nth_error words 1 = Some world) by reflexivity.
  assert (Hf : fires (pageYmax words) hello world).
  { apply boundary_fires. vm_compute. reflexivity. }
  split; [exact Hc|]. split; [exact Hn|]. split; [exact Hf|].
  exact (proj1 (delimiter_after_word_iff (str ".") words 0 hello world Hc Hn) Hf).
Defined.

End SentenceSegmenter.

(** ** The speech stage: the jobs of [TextToSpeechTask.run] *)

Module SpeechSynthesisStage.

Import JS TextToSpeechTask.

(** [covered existFiles j]: the up-front listing has an object whose name
    ends with the output path of job [j]. *)
Definition covered (existFiles : list jsstring) (j : Job) : bool :=
  existsb (fun f => endsWith f (jobPath j)) existFiles.

(** An environment over the three-word document: the listing of the output
    prefix is [existing] and every synthesis call is rejected. *)
Definition failingEnv (existing : list jsstring) : Env :=
  {| listFiles := fun _ => Resolved existing;
     readOcrJson := fun _ => Resolved SentenceSegmenter.threeWords;
     speech := fun _ _ => Rejected (str "UNAVAILABLE") |}.

Definition shard : jsstring := str "dev/json/b/output-1-to-1.json".
Definition prefix : jsstring := str "dev/mp3/b".
Definition firstJob : Job :=
  {| jobText := str "Hello.World."; jobPath := str "dev/mp3/b/output-001.mp3" |}.

Lemma all_Rejected (A : Type) (ps : list (outcome A)) (e : jsstring) :
  In (Rejected e) ps -> exists e', all ps = Rejected e'.
Proof.
  induction ps as [|p ps IH]; intros Hin; [contradiction|].
  destruct p as [a|e0]; simpl.
  - destruct Hin as [H|H]; [discriminate|].
    destruct (IH H) as [e' ->]. now exists e'.
  - now exists e0.
Qed.

Lemma all_Resolved (A : Type) (l : list A) :
  all (map Resolved l) = Resolved l.
Proof.
  induction l as [|a l IH]; simpl; [reflexivity|]. now rewrite IH.
Qed.

(** The output paths are numbered from [num + 1] in the order of the jobs. *)
Lemma planJobs_paths (texts : list jsstring) (outputPrefix : jsstring) :
  forall (fuel num i : nat) (jobs : list Job),
    planJobs fuel texts outputPrefix num i = Some jobs ->
    map jobPath jobs
    = map (getOutputPath outputPrefix) (seq (S num) (length jobs)).
Proof.
  induction fuel as [|fuel IH]; intros num i jobs H; [discriminate|].
  simpl in H. destruct (i <? length texts).
  - destruct (planJobs fuel texts outputPrefix (S num) (snd (takeChunk texts i)))
      as [rest|] eqn:Hrest; [|discriminate].
    simpl in H. injection H as <-. simpl.
    now rewrite (IH (S num) _ rest Hrest).
  - injection H as <-. reflexivity.
Qed.

(** Case analysis on the [count]-th attempt of job [j]: a resolved attempt
    ends the job, a rejected one leaves the next attempt to analyse. *)
Ltac attempt_cases env j count :=
  destruct (speech env (jobPath j) count);
  try solve [cbn; split; first [lia | repeat constructor]].

(** A job that is not covered calls [ttsRequest] once per attempt, for
    attempts 1 to 5 at most, each time with its own text and path. *)
Lemma runJob_calls (env : Env) (existFiles : list jsstring) (j : Job) :
  covered existFiles j = false ->
  length (fst (runJob env existFiles j)) <= 5 /\
  Forall (fun c => c = {| callText := jobText j; callPath := jobPath j |})
         (fst (runJob env existFiles j)).
Proof.
  unfold covered. intros Hc. unfold runJob, promiseRetry. rewrite Hc.
  cbn [promiseRetry_from Nat.ltb Nat.leb ttsRequest].
  attempt_cases env j 1. attempt_cases env j 2. attempt_cases env j 3.
  attempt_cases env j 4. attempt_cases env j 5.
Qed.

(** Five rejected attempts: five calls, then the rejection raised at the
    sixth attempt, which calls nothing. *)
Lemma runJob_gives_up (env : Env) (existFiles : list jsstring) (j : Job) :
  covered existFiles j = false ->
  (forall count, 1 <= count <= 5 ->
     exists e, speech env (jobPath j) count = Rejected e) ->
  length (fst (runJob env existFiles j)) = 5 /\
  snd (runJob env existFiles j) = Rejected (str "gave up after 5 retry").
Proof.
  unfold covered. intros Hc Hfail. unfold runJob, promiseRetry. rewrite Hc.
  cbn [promiseRetry_from Nat.ltb Nat.leb ttsRequest].
  destruct (Hfail 1) as [e1 ->]; [lia|].
  destruct (Hfail 2) as [e2 ->]; [lia|].
  destruct (Hfail 3) as [e3 ->]; [lia|].
  destruct (Hfail 4) as [e4 ->]; [lia|].
  destruct (Hfail 5) as [e5 ->]; [lia|].
  split; reflexivity.
Qed.

Lemma runJob_covered (env : Env) (existFiles : list jsstring) (j : Job) :
  covered existFiles j = true ->
  runJob env existFiles j = ([], Resolved (jobPath j)).
Proof.
  unfold covered, runJob. now intros ->.
Qed.

Lemma run_unfold (delimiter : jsstring) (env : Env) (fuel : nat)
    (gcsPaths : list jsstring) (outputPrefix : jsstring)
    (existFiles : list jsstring) (textsList : list (list jsstring))
    (jobs : list Job) :
  listFiles env outputPrefix = Resolved existFiles ->
  all (map (readOcrOuputJson delimiter env) gcsPaths) = Resolved textsList ->
  planJobs fuel (concat textsList) outputPrefix 0 0 = Some jobs ->
  run delimiter env fuel gcsPaths outputPrefix
  = Some (flat_map fst (map (runJob env existFiles) jobs),
          all (map snd (map (runJob env existFiles) jobs))).
Proof.
  intros Hl Hr Hp. unfold run. now rewrite Hl, Hr, Hp.
Qed.

(** C8: when the up-front listing covers the output path of every planned
    chunk, [run] makes no [ttsRequest] call and resolves to the output
    paths, which are [output-001], [output-002], ... in chunk order. *)
Theorem resume_makes_no_call (delimiter : jsstring) (env : Env) (fuel : nat)
    (gcsPaths : list jsstring) (outputPrefix : jsstring)
    (existFiles : list jsstring) (textsList : list (list jsstring))
    (jobs : list Job) :
  listFiles env outputPrefix = Resolved existFiles ->
  all (map (readOcrOuputJson delimiter env) gcsPaths) = Resolved textsList ->
  planJobs fuel (concat textsList) outputPrefix 0 0 = Some jobs ->
  Forall (fun j => covered existFiles j = true) jobs ->
  run delimiter env fuel gcsPaths outputPrefix
  = Some ([], Resolved (map jobPath jobs)) /\
  map jobPath jobs
  = map (getOutputPath outputPrefix) (seq 1 (length jobs)).
Proof.
  intros Hl Hr Hp Hall.
  split; [|exact (planJobs_paths _ _ fuel 0 0 jobs Hp)].
  rewrite (run_unfold delimiter env fuel gcsPaths outputPrefix
             existFiles textsList jobs Hl Hr Hp).
  assert (Hmap : map (runJob env existFiles) jobs
                 = map (fun j => ([], Resolved (jobPath j))) jobs).
  { apply map_ext_in. intros j Hj. rewrite Forall_forall in Hall.
    apply runJob_covered. now apply Hall. }
  rewrite Hmap. do 2 f_equal.
  - rewrite flat_map_concat_map, map_map. simpl.
    clear. induction jobs; simpl; auto.
  - rewrite map_map. simpl. rewrite <- (map_map jobPath Resolved).
    f_equal. apply all_Resolved.
Qed.

Lemma resume_makes_no_call_witness :
  Forall (fun j => covered [str "dev/mp3/b/output-001.mp3"] j = true) [firstJob] /\
  run (str ".") (failingEnv [str "dev/mp3/b/output-001.mp3"]) 2 [shard] prefix
  = Some ([], Resolved [str "dev/mp3/b/output-001.mp3"]).
Proof.
  assert (Hall : Forall (fun j => covered [str "dev/mp3/b/output-001.mp3"] j = true)
                        [firstJob]) by (repeat constructor).
  split; [exact Hall|].
  refine (proj1 (resume_makes_no_call (str ".")
                   (failingEnv [str "dev/mp3/b/output-001.mp3"]) 2 [shard] prefix
                   [str "dev/mp3/b/output-001.mp3"]
                   [[str "Hello."; str "World."]] [firstJob] _ _ _ Hall)).
  - reflexivity.
  - vm_compute. reflexivity.
  - vm_compute. reflexivity.
Defined.

End SpeechSynthesisStage.

(** ** Regular-expression helpers shared by [src/app.ts] *)

Module Re.

Import JS.

(** [[0-9]] *)
Definition isDigit (c : N) : bool := (48 <=? c)%N && (c <=? 57)%N.

(** The code units [.] does not match: LF, CR, LS and PS. *)
Definition isLineTerminator (c : N) : bool :=
  (c =? 10)%N || (c =? 13)%N || (c =? 8232)%N || (c =? 8233)%N.

Fixpoint takeWhile (p : N -> bool) (s : jsstring) : jsstring :=
  match s with
  | [] => []
  | c :: s' => if p c then c :: takeWhile p s' else []
  end.

Fixpoint dropWhile (p : N -> bool) (s : jsstring) : jsstring :=
  match s with
  | [] => []
  | c :: s' => if p c then dropWhile p s' else s
  end.

(** Three digits at the head of [s]: the capture of [([0-9]{3})]. *)
Definition threeDigits (s : jsstring) : option jsstring :=
  match s with
  | a :: b :: c :: _ =>
    if isDigit a && isDigit b && isDigit c then Some [a; b; c] else None
  | _ => None
  end.

(** The capture at the leftmost ["-"] that three digits follow. *)
Fixpoint afterDash (s : jsstring) : option jsstring :=
  match s with
  | [] => None
  | c :: s' =>
    match (if (c =? 45)%N then threeDigits s' else None) with
    | Some d => Some d
    | None => afterDash s'
    end
  end.

(** [s.replace(/^.*?-([0-9]{3}).*$/, '$1')]: the pattern spans the whole
    string, so it matches only a string free of line terminators, and the
    lazy prefix stops at the leftmost ["-ddd"]; without a match the string
    is returned as it is. *)
Definition replaceFirstIndex (s : jsstring) : jsstring :=
  if existsb isLineTerminator s then s
  else match afterDash s with
       | Some d => d
       | None => s
       end.

(** [s.replace(/^.*([0-9]{3})\.mp3$/, '$1')]: a match needs the string to
    end with three digits and [".mp3"]. *)
Definition replaceLastIndex (s : jsstring) : jsstring :=
  if existsb isLineTerminator s then s
  else if endsWith s (str ".mp3") && (7 <=? length s) then
    match threeDigits (skipn (length s - 7) s) with
    | Some d => d
    | None => s
    end
  else s.

(** [s.replace(/^.*?([0-9]+).*$/, '$1')]: the leftmost run of digits of a
    string free of line terminators. *)
Definition replaceFirstNumber (s : jsstring) : jsstring :=
  if existsb isLineTerminator s then s
  else match takeWhile isDigit (dropWhile (fun c => negb (isDigit c)) s) with
       | [] => s
       | d => d
       end.

End Re.

(** ** [ConcatMp3Task] ([src/app.ts]) *)

Module ConcatMp3Task.

Import JS.

Definition maxConcurrency : nat := 8.
Definition maxCombine : nat := 32.

(** The storage calls of the task, [require('path').dirname], and the
    schedule: [started groups] is how many of the closures of a level
    [PLimit(maxConcurrency)] has started by the time the promise of the
    level rejects.  The closures start in submission order, so the calls
    made by then are those of the first groups of the level. *)
Record Env := {
  dirname : jsstring -> jsstring;
  copy : jsstring -> jsstring -> outcome unit;
  combine : list jsstring -> jsstring -> outcome unit;
  started : list (list jsstring) -> nat
}.

Inductive GcsCall : Type :=
| Copy (sourcePath destPath : jsstring)
| Combine (sourcePaths : list jsstring) (destPath : jsstring).

(** [files.slice(i, j)] for [0 <= i <= j]. *)
Definition slice (files : list jsstring) (i j : nat) : list jsstring :=
  firstn (j - i) (skipn i files).

(** [getConcatFilePath]; [None] stands for the exception raised on an empty
    array, where [files[0]] is undefined. *)
Definition getConcatFilePath (env : Env) (files : list jsstring)
    : option jsstring :=
  match files with
  | [] => None
  | first :: _ =>
    let dir := dirname env first in
    let s := Re.replaceFirstIndex first in
    let e := Re.replaceLastIndex (last files []) in
    Some (dir ++ str "/concat-" ++ s ++ str "-" ++ e ++ str ".mp3")
  end.

(** The groups cut by [for (let i = 0; i < files.length; i+=maxCombine)];
    [fuel] bounds the number of tests of the loop condition. *)
Fixpoint groupsFrom (fuel : nat) (files : list jsstring) (i : nat)
    : list (list jsstring) :=
  match fuel with
  | O => []
  | S fuel' =>
    if i <? length files then
      slice files i (i + maxCombine) :: groupsFrom fuel' files (i + maxCombine)
    else []
  end.

Definition groups (files : list jsstring) : list (list jsstring) :=
  groupsFrom (S (length files)) files 0.

(** The closure handed to [limit] for one group. *)
Definition combineGroup (env : Env) (group : list jsstring)
    : list GcsCall * outcome jsstring :=
  match getConcatFilePath env group with
  | None => ([], Rejected (str "TypeError"))
  | Some concatFilePath =>
    ([Combine group concatFilePath],
     match combine env group concatFilePath with
     | Resolved _ => Resolved concatFilePath
     | Rejected e => Rejected e
     end)
  end.

(** The number of promises that resolve before the first rejected one. *)
Fixpoint resolvedBefore {A : Type} (os : list (outcome A)) : nat :=
  match os with
  | Resolved _ :: os' => S (resolvedBefore os')
  | _ => 0
  end.

(** The number of closures of a level that have been started when the
    level rejects: what the schedule says, at least up to the closure whose
    rejection is reported and at most all of them. *)
Definition startedCount {A : Type} (env : Env) (gs : list (list jsstring))
    (os : list (outcome A)) : nat :=
  Nat.min (length gs) (Nat.max (S (resolvedBefore os)) (started env gs)).

(** [run]: the storage calls made by the time the returned promise
    settles, level by level, and what it settles to; [fuel] bounds the
    depth of the recursion and [None] means it is spent. *)
Fixpoint run (fuel : nat) (env : Env) (files : list jsstring)
    (outputPath : jsstring) : option (list GcsCall * outcome jsstring) :=
  match fuel with
  | O => None
  | S fuel' =>
    match files with
    | [] => Some ([], Rejected (str "files are empty"))
    | [f] =>
      Some ([Copy f outputPath],
            match copy env f outputPath with
            | Resolved _ => Resolved outputPath
            | Rejected e => Rejected e
            end)
    | _ :: _ :: _ =>
      let results := map (combineGroup env) (groups files) in
      match all (map snd results) with
      | Rejected e =>
        Some (firstn (startedCount env (groups files) (map snd results))
                     (flat_map fst results),
              Rejected e)
      | Resolved newFiles =>
        match run fuel' env newFiles outputPath with
        | None => None
        | Some (calls, o) => Some (flat_map fst results ++ calls, o)
        end
      end
    end
  end.

(** The number of [combine] calls in a trace. *)
Definition combineCalls (calls : list GcsCall) : nat :=
  length (filter (fun c => match c with Combine _ _ => true | Copy _ _ => false end)
                 calls).

(** [ceil(n / maxCombine)] *)
Definition groupCount (n : nat) : nat := (n + (maxCombine - 1)) / maxCombine.

(** The number of [combine] calls [run] makes on [n] files when none
    fails, by the recursion of [run]. *)
Fixpoint combineTotal (fuel n : nat) : nat :=
  match fuel with
  | O => 0
  | S fuel' =>
    if n <=? 1 then 0 else groupCount n + combineTotal fuel' (groupCount n)
  end.

(** An environment in which every storage call succeeds. *)
Definition reliable : Env :=
  {| dirname := fun _ => str "dev/mp3/b";
     copy := fun _ _ => Resolved tt;
     combine := fun _ _ => Resolved tt;
     started := fun gs => length gs |}.

(** The segment paths [output-001.mp3] to [output-n.mp3]. *)
Definition segments (n : nat) : list jsstring :=
  map (TextToSpeechTask.getOutputPath (str "dev/mp3/b")) (seq 1 n).

End ConcatMp3Task.

(** ** The audio merger: the recursion of [ConcatMp3Task.run] *)

Module AudioMerger.

Import JS ConcatMp3Task.

(** The intermediate path of a (non-empty) group. *)
Definition intermediate (env : Env) (group : list jsstring) : jsstring :=
  match getConcatFilePath env group with
  | Some p => p
  | None => []
  end.

(** The [combine] calls of one level, one per group. *)
Definition levelCalls (env : Env) (gs : list (list jsstring)) : list GcsCall :=
  map (fun g => Combine g (intermediate env g)) gs.

Lemma maxCombine_eq : maxCombine = 32.
Proof. reflexivity. Qed.

Lemma groupCount_step (n : nat) :
  0 < n -> groupCount n = S (groupCount (n - maxCombine)).
Proof.
  unfold groupCount. rewrite maxCombine_eq. intros Hn.
  change (32 - 1) with 31.
  destruct (Nat.le_gt_cases 32 n) as [Hge|Hlt].
  - replace (n + 31) with ((n - 32 + 31) + 1 * 32) by lia.
    rewrite Nat.div_add by lia. lia.
  - replace (n - 32) with 0 by lia. change (0 + 31) with 31.
    rewrite (Nat.div_small 31 32) by lia.
    symmetry. apply Nat.div_unique with (r := n - 1); lia.
Qed.

Lemma groupCount_0 : groupCount 0 = 0.
Proof. reflexivity. Qed.

(** [groupCount n] is the ceiling of [n / maxCombine]. *)
Lemma groupCount_ceil (n : nat) :
  1 <= n ->
  maxCombine * (groupCount n - 1) < n <= maxCombine * groupCount n.
Proof.
  unfold groupCount. rewrite maxCombine_eq. change (32 - 1) with 31. intros Hn.
  pose proof (Nat.div_mod_eq (n + 31) 32) as Hd.
  pose proof (Nat.mod_upper_bound (n + 31) 32) as Hm.
  lia.
Qed.

Lemma groupCount_lt (n : nat) : 2 <= n -> 1 <= groupCount n < n.
Proof.
  intros Hn. pose proof (groupCount_ceil n) as Hc.
  rewrite maxCombine_eq in Hc. lia.
Qed.

Lemma groupsFrom_spec (files : list jsstring) :
  forall (fuel i : nat),
    length files - i < fuel ->
    length (groupsFrom fuel files i) = groupCount (length files - i) /\
    concat (groupsFrom fuel files i) = skipn i files /\
    Forall (fun g => 1 <= length g <= maxCombine) (groupsFrom fuel files i).
Proof.
  induction fuel as [|fuel IH]; intros i Hfuel; [lia|].
  cbn [groupsFrom]. destruct (Nat.ltb_spec i (length files)) as [Hlt|Hge].
  - destruct (IH (i + maxCombine)) as [Hlen [Hcat Hall]];
      [rewrite maxCombine_eq; lia|].
    split; [|split].
    + cbn [length]. rewrite Hlen.
      rewrite (groupCount_step (length files - i)) by lia.
      do 2 f_equal. lia.
    + cbn [concat]. rewrite Hcat. unfold slice.
      replace (i + maxCombine - i) with maxCombine by lia.
      rewrite <- (firstn_skipn maxCombine (skipn i files)) at 2.
      f_equal. rewrite skipn_skipn. f_equal. lia.
    + constructor; [|exact Hall]. unfold slice.
      rewrite length_firstn, length_skipn, maxCombine_eq. lia.
  - replace (length files - i) with 0 by lia.
    split; [reflexivity|]. split; [|constructor].
    simpl. symmetry. apply skipn_all2. lia.
Qed.

Lemma groups_spec (files : list jsstring) :
  length (groups files) = groupCount (length files) /\
  concat (groups files) = files /\
  Forall (fun g => 1 <= length g <= maxCombine) (groups files).
Proof.
  unfold groups.
  destruct (groupsFrom_spec files (S (length files)) 0) as [Hlen [Hcat Hall]]; [lia|].
  rewrite Nat.sub_0_r in Hlen. now split; [|split].
Qed.

Lemma combineGroup_ok (env : Env) (g : list jsstring) :
  (forall srcs d, combine env srcs d = Resolved tt) ->
  1 <= length g ->
  combineGroup env g
  = ([Combine g (intermediate env g)], Resolved (intermediate env g)).
Proof.
  intros Hcomb Hg. unfold combineGroup, intermediate.
  destruct g as [|first g']; [simpl in Hg; lia|].
  cbn [getConcatFilePath]. now rewrite Hcomb.
Qed.

Lemma level_ok (env : Env) (gs : list (list jsstring)) :
  (forall srcs d, combine env srcs d = Resolved tt) ->
  Forall (fun g => 1 <= length g <= maxCombine) gs ->
  flat_map fst (map (combineGroup env) gs) = levelCalls env gs /\
  all (map snd (map (combineGroup env) gs)) = Resolved (map (intermediate env) gs).
Proof.
  intros Hcomb. induction 1 as [|g gs Hg _ [IHc IHr]]; [now split|].
  cbn [map flat_map all]. rewrite (combineGroup_ok env g Hcomb) by lia.
  cbn [fst snd]. rewrite IHc, IHr. now split.
Qed.

(** One level of the recursion on two or more files. *)
Lemma run_level (env : Env) (outputPath : jsstring)
    (files : list jsstring) (fuel : nat) :
  (forall srcs d, combine env srcs d = Resolved tt) ->
  2 <= length files ->
  run (S fuel) env files outputPath
  = match run fuel env (map (intermediate env) (groups files)) outputPath with
    | None => None
    | Some (calls, o) => Some (levelCalls env (groups files) ++ calls, o)
    end.
Proof.
  intros Hcomb Hn.
  destruct files as [|f1 [|f2 rest]]; [simpl in Hn; lia | simpl in Hn; lia |].
  destruct (groups_spec (f1 :: f2 :: rest)) as [_ [_ Hall]].
  destruct (level_ok env (groups (f1 :: f2 :: rest)) Hcomb Hall) as [Hc Hr].
  cbn [run]. rewrite Hr, Hc. reflexivity.
Qed.

Lemma combineCalls_app (a b : list GcsCall) :
  combineCalls (a ++ b) = combineCalls a + combineCalls b.
Proof.
  unfold combineCalls. now rewrite filter_app, length_app.
Qed.

Lemma combineCalls_level (env : Env) (gs : list (list jsstring)) :
  combineCalls (levelCalls env gs) = length gs.
Proof.
  unfold combineCalls, levelCalls.
  induction gs as [|g gs IH]; [reflexivity|]. simpl. now rewrite IH.
Qed.

(** The recursion ends: from one file or more, and with no storage failure,
    [run] finishes with the copy to [outputPath], after
    [combineTotal] combine calls. *)
Lemma run_total (env : Env) (outputPath : jsstring) :
  (forall s d, copy env s d = Resolved tt) ->
  (forall srcs d, combine env srcs d = Resolved tt) ->
  forall (fuel : nat) (files : list jsstring),
    1 <= length files <= fuel ->
    exists calls final,
      run fuel env files outputPath
      = Some (calls ++ [Copy final outputPath], Resolved outputPath) /\
      combineCalls calls = length calls /\
      length calls = combineTotal fuel (length files).
Proof.
  intros Hcopy Hcomb. induction fuel as [|fuel IH]; intros files Hn; [lia|].
  destruct (Nat.eq_dec (length files) 1) as [H1|H1].
  - destruct files as [|f [|f2 rest]]; try discriminate H1.
    exists [], f. cbn [run]. rewrite Hcopy. now split.
  - rewrite (run_level env outputPath files fuel Hcomb) by lia.
    destruct (groups_spec files) as [Hlen _].
    pose proof (groupCount_lt (length files)) as Hlt.
    destruct (IH (map (intermediate env) (groups files))) as [calls [final [Hrun [Hall Hcount]]]];
      [rewrite length_map, Hlen; lia|].
    rewrite Hrun. exists (levelCalls env (groups files) ++ calls), final.
    split; [now rewrite app_assoc|].
    rewrite combineCalls_app, combineCalls_level, length_app, Hall.
    unfold levelCalls. rewrite length_map. split; [reflexivity|].
    rewrite Hcount, length_map, Hlen. cbn [combineTotal].
    destruct (Nat.leb_spec (length files) 1); [lia | reflexivity].
Qed.

(** C7: with [maxCombine = 32], [run] on no file rejects with "files are
    empty"; on one file it makes one copy to [outputPath] and no combine
    call; on two files or more one level cuts the list into
    [ceil(N/32)] consecutive groups of 1 to 32 files, makes one combine call
    per group and recurses on the [ceil(N/32)] intermediate paths; the
    recursion ends with the copy of the one remaining file to
    [outputPath]; on 65 files it makes 4 combine calls.  The storage calls
    are taken to succeed. *)
Theorem merge_reduction (env : Env) (outputPath : jsstring) :
  (forall s d, copy env s d = Resolved tt) ->
  (forall srcs d, combine env srcs d = Resolved tt) ->
  maxCombine = 32 /\
  (forall fuel,
     run (S fuel) env [] outputPath
     = Some ([], Rejected (str "files are empty"))) /\
  (forall fuel f,
     run (S fuel) env [f] outputPath
     = Some ([Copy f outputPath], Resolved outputPath)) /\
  (forall files, 2 <= length files ->
     length (groups files) = groupCount (length files) /\
     maxCombine * (groupCount (length files) - 1) < length files
       <= maxCombine * groupCount (length files) /\
     concat (groups files) = files /\
     Forall (fun g => 1 <= length g <= maxCombine) (groups files) /\
     length (map (intermediate env) (groups files)) = groupCount (length files) /\
     forall fuel,
       run (S fuel) env files outputPath
       = match run fuel env (map (intermediate env) (groups files)) outputPath with
         | None => None
         | Some (calls, o) =>
           Some (map (fun g => Combine g (intermediate env g)) (groups files)
                 ++ calls, o)
         end) /\
  (forall files, 1 <= length files ->
     exists calls final,
       run (length files) env files outputPath
       = Some (calls ++ [Copy final outputPath], Resolved outputPath) /\
       combineCalls calls = length calls) /\
  (forall files, length files = 65 ->
     exists calls,
       run 65 env files outputPath = Some (calls, Resolved outputPath) /\
       combineCalls calls = 4).
Proof.
  intros Hcopy Hcomb.
  split; [reflexivity|].
  split; [reflexivity|].
  split; [intros fuel f; cbn [run]; now rewrite Hcopy|].
  split; [|split].
  - intros files Hn. destruct (groups_spec files) as [Hlen [Hcat Hall]].
    split; [exact Hlen|].
    split; [apply groupCount_ceil; lia|].
    split; [exact Hcat|]. split; [exact Hall|].
    split; [now rewrite length_map|].
    intros fuel. apply (run_level env outputPath files fuel Hcomb Hn).
  - intros files Hn.
    destruct (run_total env outputPath Hcopy Hcomb (length files) files)
      as [calls [final [Hrun [Hall _]]]]; [lia|].
    now exists calls, final.
  - intros files Hn.
    destruct (run_total env outputPath Hcopy Hcomb 65 files)
      as [calls [final [Hrun [Hall Hcount]]]]; [lia|].
    exists (calls ++ [Copy final outputPath]). split; [exact Hrun|].
    rewrite combineCalls_app, Hall, Hcount, Hn.
    vm_compute. reflexivity.
Qed.

Lemma merge_reduction_witness :
  (forall s d, copy reliable s d = Resolved tt) /\
  (forall srcs d, combine reliable srcs d = Resolved tt) /\
  length (segments 65) = 65 /\
  exists calls,
    run 65 reliable (segments 65) (str "dev/out/b.mp3")
    = Some (calls, Resolved (str "dev/out/b.mp3")) /\
    combineCalls calls = 4.
Proof.
  assert (Hcopy : forall s d, copy reliable s d = Resolved tt) by reflexivity.
  assert (Hcomb : forall srcs d, combine reliable srcs d = Resolved tt) by reflexivity.
  assert (Hlen : length (segments 65) = 65) by (vm_compute; reflexivity).
  split; [exact Hcopy|]. split; [exact Hcomb|]. split; [exact Hlen|].
  exact (proj2 (proj2 (proj2 (proj2 (proj2
           (merge_reduction reliable (str "dev/out/b.mp3") Hcopy Hcomb)))))
           (segments 65) Hlen).
Defined.

End AudioMerger.

(** ** [OcrTask] ([src/app.ts]) *)

Module OcrTask.

Import JS.

(** The white space [parseInt] skips: the WhiteSpace and LineTerminator
    code units. *)
Definition isWhiteSpace (c : N) : bool :=
  existsb (N.eqb c)
          [9; 10; 11; 12; 13; 32; 160; 5760; 8232; 8233; 8239; 8287; 12288;
           65279]%N
  || ((8192 <=? c)%N && (c <=? 8202)%N).

(** The value of a run of decimal digits. *)
Definition digitsValue (ds : jsstring) : Z :=
  fold_left (fun acc d => (10 * acc + (Z.of_N d - 48))%Z) ds 0%Z.

(** [parseInt(s, 10)]; [None] is [NaN].  The value is given as an integer:
    it is the number [parseInt] returns as long as it is below [2^53]. *)
Definition parseInt10 (s : jsstring) : option Z :=
  let s1 := Re.dropWhile isWhiteSpace s in
  let (sign, s2) :=
    match s1 with
    | 45%N :: r => ((-1)%Z, r)
    | 43%N :: r => (1%Z, r)
    | _ => (1%Z, s1)
    end in
  match Re.takeWhile Re.isDigit s2 with
  | [] => None
  | ds => Some (sign * digitsValue ds)%Z
  end.

Definition ord (name : jsstring) : option Z :=
  parseInt10 (Re.replaceFirstNumber name).

(** The comparator [(a, b) => this.ord(a) - this.ord(b)], as [sort] reads
    it: a [NaN] difference counts as [0]. *)
Definition compareOrd (a b : jsstring) : Z :=
  match ord a, ord b with
  | Some x, Some y => (x - y)%Z
  | _, _ => 0%Z
  end.

Fixpoint insert (cmp : jsstring -> jsstring -> Z) (x : jsstring)
    (sorted : list jsstring) : list jsstring :=
  match sorted with
  | [] => [x]
  | y :: rest =>
    if (0 <? cmp y x)%Z then x :: y :: rest else y :: insert cmp x rest
  end.

(** [files.sort(cmp)]: the sort is stable, so for a comparator that orders
    the names consistently (every name has a number) the result is the one
    this insertion sort computes. *)
Definition sort (cmp : jsstring -> jsstring -> Z) (files : list jsstring)
    : list jsstring :=
  fold_left (fun sorted x => insert cmp x sorted) files [].

(** The collaborators of [run]: the bucket name, the listing of a prefix
    before any OCR call, and the OCR operation, which on success (a
    finished operation with a well-formed response) gives the listing of
    the bucket afterwards. *)
Record Env := {
  bucketName : jsstring;
  listFiles : jsstring -> outcome (list jsstring);
  asyncBatchAnnotateFiles :
    jsstring -> jsstring -> outcome (jsstring -> outcome (list jsstring))
}.

(** A call of the OCR provider: source and destination URI. *)
Record OcrCall := { gcsSourceUri : jsstring; gcsDestinationUri : jsstring }.

Definition run (env : Env) (inputFilePath outputPrefix : jsstring)
    : list OcrCall * outcome (list jsstring) :=
  match listFiles env outputPrefix with
  | Rejected e => ([], Rejected e)
  | Resolved files =>
    if 0 <? length files then ([], Resolved files)
    else
      let src := str "gs://" ++ bucketName env ++ str "/" ++ inputFilePath in
      let dst := str "gs://" ++ bucketName env ++ str "/" ++ outputPrefix
                 ++ str "/" in
      ([ {| gcsSourceUri := src; gcsDestinationUri := dst |} ],
       match asyncBatchAnnotateFiles env src dst with
       | Rejected e => Rejected e
       | Resolved listAfter =>
         match listAfter outputPrefix with
         | Rejected e => Rejected e
         | Resolved written => Resolved (sort compareOrd written)
         end
       end)
  end.

(** The shards of a 15-page document in the order a listing gives them, by
    name: ["output-11-..."] comes before ["output-6-..."]. *)
Definition listedShards : list jsstring :=
  [ str "dev/json/b/output-1-to-5.json";
    str "dev/json/b/output-11-to-15.json";
    str "dev/json/b/output-6-to-10.json" ].

(** A bucket whose output prefix lists [existing]; an OCR call would write
    [listedShards]. *)
Definition bucket (existing : list jsstring) : Env :=
  {| bucketName := str "pdf-audify";
     listFiles := fun _ => Resolved existing;
     asyncBatchAnnotateFiles := fun _ _ => Resolved (fun _ => Resolved listedShards) |}.

(** The listing is returned as it is whenever it is not empty, and the OCR
    provider is not called. *)
Lemma run_existing (env : Env) (inputFilePath outputPrefix : jsstring)
    (files : list jsstring) :
  listFiles env outputPrefix = Resolved files -> files <> [] ->
  run env inputFilePath outputPrefix = ([], Resolved files).
Proof.
  intros Hl Hne. unfold run. rewrite Hl.
  destruct files; [congruence | reflexivity].
Qed.

Lemma run_existing_witness :
  listedShards <> [] /\
  run (bucket listedShards) (str "b.pdf") (str "dev/json/b")
  = ([], Resolved listedShards).
Proof.
  assert (Hne : listedShards <> []) by discriminate.
  split; [exact Hne|].
  exact (run_existing (bucket listedShards) (str "b.pdf") (str "dev/json/b")
           listedShards eq_refl Hne).
Defined.

(** C4 (the code on a prefix that already holds three shards): the OCR call
    is skipped, but the shards come back in listing order, [1, 11, 6] by
    their numbers, whereas a fresh OCR run over the same shards returns
    them sorted, [1, 6, 11]. *)
Example run_existing_not_sorted :
  run (bucket listedShards) (str "b.pdf") (str "dev/json/b")
  = ([], Resolved listedShards) /\
  map ord listedShards = [Some 1%Z; Some 11%Z; Some 6%Z] /\
  snd (run (bucket []) (str "b.pdf") (str "dev/json/b"))
  = Resolved [ str "dev/json/b/output-1-to-5.json";
               str "dev/json/b/output-6-to-10.json";
               str "dev/json/b/output-11-to-15.json" ] /\
  sort compareOrd listedShards <> listedShards.
Proof.
  split; [reflexivity|]. split; [vm_compute; reflexivity|].
  split; [vm_compute; reflexivity|].
  vm_compute. discriminate.
Qed.

End OcrTask.

(** ** Further properties of the chunk planner *)

From Stdlib Require DecimalNat Permutation Sorted.

Module ChunkInvariants.

Import JS TextToSpeechTask ChunkPlanner.

(** The zero-padded number inside an output path: the local
    [suffixString] of [getOutputPath]. *)
Definition suffixOf (num : nat) : jsstring :=
  (if num <? 10 then str "00" else if num <? 100 then str "0" else [])
  ++ ofNat num.

(** The value of a string of decimal digits, most significant first. *)
Definition decimalValue (s : jsstring) : Z :=
  fold_left (fun acc c => (10 * acc + (Z.of_N c - 48))%Z) s 0%Z.

Lemma getOutputPath_suffixOf (prefix : jsstring) (num : nat) :
  getOutputPath prefix num
  = prefix ++ str "/output-" ++ suffixOf num ++ str ".mp3".
Proof. reflexivity. Qed.

Lemma takeChunk_for_bound (texts : list jsstring) (n : nat) :
  forall (text : jsstring) (i : nat),
    length text <= maxLength ->
    length (fst (takeChunk_for texts n text i)) <= maxLength.
Proof.
  induction n as [|n IH]; intros text i Hlen; [exact Hlen|].
  cbn [takeChunk_for]. destruct (nth_error texts i) as [t|]; [|exact Hlen].
  destruct (maxLength <? length (text ++ t)) eqn:Hlt; [exact Hlen|].
  apply IH. now apply Nat.ltb_ge in Hlt.
Qed.

Lemma takeChunk_for_greedy (texts : list jsstring) (n : nat) :
  forall (text : jsstring) (i : nat) (t : jsstring),
    nth_error texts (snd (takeChunk_for texts n text i)) = Some t ->
    maxLength < length (fst (takeChunk_for texts n text i) ++ t).
Proof.
  induction n as [|n IH]; intros text i t Ht.
  - cbn [takeChunk_for snd] in Ht.
    assert (H : nth_error texts (length texts) = None) by now apply nth_error_None.
    congruence.
  - cbn [takeChunk_for] in *. destruct (nth_error texts i) as [u|] eqn:Hu.
    + destruct (maxLength <? length (text ++ u)) eqn:Hlt.
      * cbn [fst snd] in *. rewrite Hu in Ht. injection Ht as <-.
        now apply Nat.ltb_lt.
      * now apply IH.
    + cbn [snd] in Ht.
      assert (H : nth_error texts (length texts) = None) by now apply nth_error_None.
      congruence.
Qed.

(** Chunk bound: a chunk never has more than [maxLength] code units, it is
    maximal (the fragment at the returned index, if any, would overflow
    it), and past the end of the list the chunk is empty. *)
Theorem takeChunk_bounded_and_greedy (texts : list jsstring) (index : nat) :
  length (fst (takeChunk texts index)) <= maxLength /\
  (forall t, nth_error texts (snd (takeChunk texts index)) = Some t ->
             maxLength < length (fst (takeChunk texts index) ++ t)) /\
  (length texts <= index -> takeChunk texts index = ([], length texts)).
Proof.
  split; [apply takeChunk_for_bound; simpl; lia|].
  split; [intros t; apply takeChunk_for_greedy|].
  intros Hi. unfold takeChunk. now replace (length texts - index) with 0 by lia.
Qed.

Lemma planJobs_Some_chunked (texts : list jsstring) (outputPrefix : jsstring) :
  forall (fuel num i : nat) (jobs : list Job),
    i <= length texts ->
    planJobs fuel texts outputPrefix num i = Some jobs ->
    Chunked texts i jobs /\
    Forall (fun j => length (jobText j) <= maxLength) jobs /\
    length jobs <= length texts - i.
Proof.
  induction fuel as [|fuel IH]; intros num i jobs Hi H; [discriminate|].
  cbn [planJobs] in H. destruct (Nat.ltb_spec i (length texts)) as [Hlt|Hge].
  - destruct (planJobs fuel texts outputPrefix (S num) (snd (takeChunk texts i)))
      as [rest|] eqn:Hrest; [|discriminate].
    cbn [option_map] in H. injection H as <-.
    destruct (takeChunk_range texts i Hi) as [Hb Hf].
    destruct (nth_error texts i) as [t|] eqn:Ht.
    2:{ apply nth_error_None in Ht. lia. }
    assert (Hadv : i < snd (takeChunk texts i)).
    { destruct (Nat.le_gt_cases (length t) maxLength) as [Hle|Hgt].
      - now apply takeChunk_advances with (t := t).
      - rewrite (planJobs_blocked texts i t Ht Hgt fuel outputPrefix (S num)
                   (snd (takeChunk texts i))) in Hrest; [discriminate|].
        rewrite (takeChunk_oversized texts i t Ht Hgt). simpl. lia. }
    destruct (IH (S num) (snd (takeChunk texts i)) rest) as [Hch [Hall Hcount]];
      [lia | exact Hrest |].
    split; [|split].
    + apply Chunked_cut with (j := snd (takeChunk texts i));
        [exact Hadv | lia | exact Hf | exact Hch].
    + constructor; [|exact Hall]. cbn [jobText].
      apply takeChunk_for_bound. simpl. lia.
    + cbn [length]. lia.
  - injection H as <-. assert (i = length texts) as -> by lia.
    split; [constructor|]. split; [constructor | simpl; lia].
Qed.

Lemma decimalValue_of_uint (d : Decimal.uint) :
  forall acc : nat,
    fold_left (fun a c => (10 * a + (Z.of_N c - 48))%Z)
              (str (NilEmpty.string_of_uint d)) (Z.of_nat acc)
    = Z.of_nat (Nat.of_uint_acc d acc).
Proof.
  induction d; intros acc; cbn [NilEmpty.string_of_uint Nat.of_uint_acc];
    [reflexivity | ..];
    (unfold str; cbn [list_ascii_of_string map fold_left];
     fold (str (NilEmpty.string_of_uint d));
     rewrite <- IHd; f_equal;
     rewrite Nat.tail_mul_spec; cbn [N_of_ascii N_of_digits]; lia).
Qed.

Lemma decimalValue_ofNat (n : nat) : decimalValue (ofNat n) = Z.of_nat n.
Proof.
  unfold decimalValue, ofNat. change 0%Z with (Z.of_nat 0).
  rewrite (decimalValue_of_uint (Nat.to_uint n) 0).
  change (Nat.of_uint_acc (Nat.to_uint n) 0) with (Nat.of_uint (Nat.to_uint n)).
  now rewrite DecimalNat.Unsigned.of_to.
Qed.

Lemma decimalValue_suffixOf (num : nat) :
  decimalValue (suffixOf num) = Z.of_nat num.
Proof.
  rewrite <- decimalValue_ofNat. unfold suffixOf, decimalValue.
  destruct (num <? 10); [|destruct (num <? 100)];
    rewrite ?fold_left_app; reflexivity.
Qed.

Lemma getOutputPath_inj (prefix : jsstring) (n m : nat) :
  getOutputPath prefix n = getOutputPath prefix m -> n = m.
Proof.
  rewrite !getOutputPath_suffixOf. intros H.
  apply app_inv_head in H. apply app_inv_head in H. apply app_inv_tail in H.
  apply Nat2Z.inj. now rewrite <- !decimalValue_suffixOf, H.
Qed.

(** Distinct chunk numbers give distinct output paths; the number can be
    read back from the zero-padded suffix. *)
Theorem getOutputPath_injective (prefix : jsstring) (n m : nat) :
  decimalValue (suffixOf n) = Z.of_nat n /\
  (getOutputPath prefix n = getOutputPath prefix m -> n = m).
Proof.
  split; [apply decimalValue_suffixOf | apply getOutputPath_inj].
Qed.

(** The chunking loop of [run] comes to an end exactly when no fragment has
    more than [maxLength] code units, and then within one pass per
    fragment. *)
Theorem chunking_ends_iff (texts : list jsstring) (outputPrefix : jsstring) :
  ((exists fuel jobs, planJobs fuel texts outputPrefix 0 0 = Some jobs)
   <-> Forall (fun t => length t <= maxLength) texts) /\
  ((exists fuel jobs, planJobs fuel texts outputPrefix 0 0 = Some jobs)
   -> exists jobs, planJobs (S (length texts)) texts outputPrefix 0 0 = Some jobs).
Proof.
  assert (Hfwd : (exists fuel jobs, planJobs fuel texts outputPrefix 0 0 = Some jobs)
                 -> Forall (fun t => length t <= maxLength) texts).
  { intros [fuel [jobs Hjobs]].
    destruct (Forall_Exists_dec (fun t => length t <= maxLength)
                (fun t => le_dec (length t) maxLength) texts) as [Hall|Hex];
      [exact Hall|].
    apply Exists_exists in Hex as [t [Hin Hbig]].
    apply In_nth_error in Hin as [k Hk].
    rewrite (planJobs_blocked texts k t Hk) in Hjobs; [discriminate | lia | lia]. }
  assert (Hbwd : Forall (fun t => length t <= maxLength) texts
                 -> exists jobs,
                      planJobs (S (length texts)) texts outputPrefix 0 0 = Some jobs).
  { intros Hall.
    destruct (planJobs_chunked texts outputPrefix Hall (length texts) 0 0)
      as [jobs [Hjobs _]]; [lia | lia |].
    now exists jobs. }
  split; [split|].
  - exact Hfwd.
  - intros Hall. destruct (Hbwd Hall) as [jobs Hjobs]. now exists (S (length texts)), jobs.
  - intros H. apply Hbwd, Hfwd, H.
Qed.

Lemma Chunked_nonempty (texts : list jsstring) (i : nat) (jobs : list Job) :
  Forall (fun t => t <> []) texts ->
  Chunked texts i jobs -> Forall (fun j => jobText j <> []) jobs.
Proof.
  intros Hne. induction 1 as [|i j job jobs Hij Hj Hjob _ IH]; constructor;
    [|exact IH].
  rewrite Hjob. unfold fragmentRange.
  destruct (nth_error texts i) as [t|] eqn:Ht.
  2:{ apply nth_error_None in Ht. lia. }
  rewrite (skipn_nth_error _ texts i t Ht).
  replace (j - i) with (S (j - S i)) by lia. cbn [firstn concat].
  rewrite Forall_forall in Hne. specialize (Hne t (nth_error_In _ _ Ht)).
  destruct t; [congruence | discriminate].
Qed.

(** Whenever the chunking loop of [run] ends, its chunks are consecutive
    ranges that cover the fragments, each of at most [maxLength] code
    units, at most one chunk per fragment, non-empty when the fragments
    are, and their output paths are [output-001], [output-002], ... without
    repetition. *)
Theorem plan_invariants (texts : list jsstring) (outputPrefix : jsstring)
    (fuel : nat) (jobs : list Job) :
  planJobs fuel texts outputPrefix 0 0 = Some jobs ->
  Chunked texts 0 jobs /\
  concat (map jobText jobs) = concat texts /\
  Forall (fun j => length (jobText j) <= maxLength) jobs /\
  length jobs <= length texts /\
  (Forall (fun t => t <> []) texts -> Forall (fun j => jobText j <> []) jobs) /\
  map jobPath jobs = map (getOutputPath outputPrefix) (seq 1 (length jobs)) /\
  NoDup (map jobPath jobs).
Proof.
  intros Hjobs.
  destruct (planJobs_Some_chunked texts outputPrefix fuel 0 0 jobs) as [Hch [Hall Hcount]];
    [lia | exact Hjobs |].
  pose proof (SpeechSynthesisStage.planJobs_paths texts outputPrefix fuel 0 0 jobs Hjobs)
    as Hpaths.
  split; [exact Hch|].
  split; [now rewrite (Chunked_concat texts 0 jobs Hch)|].
  split; [exact Hall|]. split; [lia|].
  split; [intros Hne; now apply Chunked_nonempty with (texts := texts) (i := 0)|].
  split; [exact Hpaths|].
  rewrite Hpaths. apply Finite.Injective_map_NoDup; [|apply seq_NoDup].
  intros n m H. now apply (getOutputPath_inj outputPrefix n m).
Qed.

Lemma plan_invariants_witness :
  planJobs 2 [str "Hello."; str "World."] (str "dev/mp3/b") 0 0
  = Some [ {| jobText := str "Hello.World.";
              jobPath := str "dev/mp3/b/output-001.mp3" |} ] /\
  NoDup (map jobPath [ {| jobText := str "Hello.World.";
                          jobPath := str "dev/mp3/b/output-001.mp3" |} ]).
Proof.
  assert (H : planJobs 2 [str "Hello."; str "World."] (str "dev/mp3/b") 0 0
              = Some [ {| jobText := str "Hello.World.";
                          jobPath := str "dev/mp3/b/output-001.mp3" |} ])
    by (vm_compute; reflexivity).
  split; [exact H|].
  exact (proj2 (proj2 (proj2 (proj2 (proj2 (proj2
           (plan_invariants [str "Hello."; str "World."] (str "dev/mp3/b") 2 _ H))))))).
Defined.

End ChunkInvariants.

(** ** Further properties of the sentence segmenter *)

Module SegmenterInvariants.

Import JS TextToSpeechTask SentenceSegmenter.

(** [s] with every code unit [d] removed. *)
Definition without (d : N) (s : jsstring) : jsstring :=
  filter (fun c => negb (c =? d)%N) s.

(** The text of the words of a page that have a successor. *)
Definition pushedWords (words : list WordLevelText) : list jsstring :=
  map text (removelast words).

(** No occurrence of [sep] in [piece]. *)
Definition occurrenceFree (sep piece : jsstring) : Prop :=
  forall k, startsWith (skipn k piece) sep = false.



Lemma without_app (d : N) (a b : jsstring) :
  without d (a ++ b) = without d a ++ without d b.
Proof. apply filter_app. Qed.

Lemma without_delimiter (d : N) : without d [d] = [].
Proof. unfold without. simpl. now rewrite N.eqb_refl. Qed.

Lemma without_idem (d : N) (s : jsstring) :
  without d (without d s) = without d s.
Proof.
  unfold without. induction s as [|c s IH]; [reflexivity|]. simpl.
  destruct (c =? d)%N eqn:Hc; simpl; [exact IH|]. now rewrite Hc, IH.
Qed.

Lemma without_concat (d : N) (l : list jsstring) :
  without d (concat l) = concat (map (without d) l).
Proof.
  induction l as [|a l IH]; [reflexivity|].
  simpl. now rewrite without_app, IH.
Qed.

(** Cutting at a one-unit separator and gluing the pieces removes exactly
    the separators. *)
Lemma split_scan_concat (d : N) :
  forall (fuel : nat) (piece s : jsstring),
    length s <= fuel ->
    concat (split_scan fuel [d] piece s) = piece ++ without d s.
Proof.
  induction fuel as [|fuel IH]; intros piece s Hlen.
  - destruct s; [|simpl in Hlen; lia]. simpl. now rewrite !app_nil_r.
  - destruct s as [|c s']; [simpl; now rewrite !app_nil_r|].
    cbn [split_scan startsWith]. unfold without. cbn [filter].
    destruct (c =? d)%N eqn:Hc; cbn [andb negb].
    + cbn [length skipn concat]. rewrite IH by (simpl in Hlen; lia). reflexivity.
    + rewrite IH by (simpl in Hlen; lia). now rewrite <- app_assoc.
Qed.

Lemma split_concat (d : N) (s : jsstring) :
  concat (split s [d]) = without d s.
Proof. unfold split. now rewrite split_scan_concat. Qed.

Lemma concat_nonempty (l : list jsstring) :
  concat (filter (fun x => negb (eqb x [])) l) = concat l.
Proof.
  induction l as [|a l IH]; [reflexivity|]. simpl.
  destruct a; simpl; [exact IH | now rewrite IH].
Qed.

Lemma pushes_without (d : N) (ymax : float) (words : list WordLevelText) :
  without d (concat (pushes [d] ymax words))
  = without d (concat (pushedWords words)).
Proof.
  unfold pushedWords. induction words as [|w ws IH]; [reflexivity|].
  destruct ws as [|next ws']; [reflexivity|].
  change (pushes [d] ymax (w :: next :: ws'))
    with ((if boundary ymax w next then text w ++ [d] else text w)
          :: pushes [d] ymax (next :: ws')).
  change (removelast (w :: next :: ws')) with (w :: removelast (next :: ws')).
  cbn [map concat]. rewrite !without_app, IH.
  destruct (boundary ymax w next); [|reflexivity].
  now rewrite without_app, without_delimiter, app_nil_r.
Qed.

Lemma collectTexts_without (d : N) (pages : list (list WordLevelText)) :
  without d (concat (flat_map (pageTexts [d]) pages))
  = without d (concat (flat_map pushedWords pages)).
Proof.
  induction pages as [|ws pages IH]; [reflexivity|].
  cbn [flat_map]. rewrite !concat_app, !without_app, IH.
  now rewrite pageTexts_pushes, pushes_without.
Qed.

(** Text preservation: for a delimiter of one code unit, the fragments
    hold, apart from delimiters, exactly the text of every word that has a
    successor on its page, in document order. *)
Theorem splitSentences_text (d : N) (result : OcrResult.Root) :
  without d (concat (splitSentences [d] result))
  = without d (concat (flat_map pushedWords (collectPages result))).
Proof.
  unfold splitSentences, collectTexts, join.
  rewrite <- collectTexts_without.
  set (stream := concat (flat_map (pageTexts [d]) (collectPages result))).
  rewrite without_concat, map_map.
  rewrite (map_ext (fun x => without d (if endsWith x [d] then x else x ++ [d]))
                   (without d)).
  2:{ intros x. destruct (endsWith x [d]); [reflexivity|].
      now rewrite without_app, without_delimiter, app_nil_r. }
  rewrite <- without_concat, concat_nonempty, split_concat.
  apply without_idem.
Qed.

(** A document in which no page has two words yields no fragment. *)
Theorem splitSentences_needs_two_words (delimiter : jsstring)
    (result : OcrResult.Root) :
  Forall (fun words => length words <= 1) (collectPages result) ->
  splitSentences delimiter result = [].
Proof.
  intros Hall. unfold splitSentences, collectTexts, join.
  assert (H : flat_map (pageTexts delimiter) (collectPages result) = []).
  { induction Hall as [|ws pages Hws _ IH]; [reflexivity|].
    cbn [flat_map]. rewrite IH, pageTexts_pushes.
    destruct ws as [|w [|w' ws']]; [reflexivity | reflexivity | simpl in Hws; lia]. }
  rewrite H. destruct delimiter; reflexivity.
Qed.

Lemma splitSentences_needs_two_words_witness :
  Forall (fun words => length words <= 1) (collectPages oneWord) /\
  splitSentences (str ".") oneWord = [].
Proof.
  assert (H : Forall (fun words => length words <= 1) (collectPages oneWord))
    by (repeat constructor).
  split; [exact H|].
  exact (splitSentences_needs_two_words (str ".") oneWord H).
Defined.

Lemma matchFree_occurrenceFree (sep piece s : jsstring) :
  sep <> [] -> matchFree sep piece s -> occurrenceFree sep piece.
Proof.
  intros Hsep Hfree k.
  destruct (Nat.lt_ge_cases k (length piece)) as [Hlt|Hge].
  - destruct (startsWith (skipn k piece) sep) eqn:Hs; [|reflexivity].
    apply startsWith_app in Hs as [r Hr].
    specialize (Hfree k Hlt).
    rewrite skipn_app, Hr in Hfree.
    assert (Ht : startsWith ((sep ++ r) ++ skipn (k - length piece) s) sep = true)
      by (apply startsWith_app; exists (r ++ skipn (k - length piece) s);
          now rewrite app_assoc).
    congruence.
  - rewrite skipn_all2 by exact Hge. destruct sep; [congruence | reflexivity].
Qed.

Lemma split_scan_free (sep : jsstring) :
  sep <> [] ->
  forall (fuel : nat) (piece s : jsstring),
    length s <= fuel -> matchFree sep piece s ->
    Forall (occurrenceFree sep) (split_scan fuel sep piece s).
Proof.
  intros Hsep. induction fuel as [|fuel IH]; intros piece s Hlen Hfree.
  - destruct s; [|simpl in Hlen; lia]. simpl. rewrite app_nil_r.
    constructor; [|constructor]. now apply matchFree_occurrenceFree with (s := []).
  - destruct s as [|c s'].
    + simpl. constructor; [|constructor].
      now apply matchFree_occurrenceFree with (s := []).
    + cbn [split_scan]. destruct (startsWith (c :: s') sep) eqn:Hm.
      * constructor; [now apply matchFree_occurrenceFree with (s := c :: s')|].
        apply startsWith_app in Hm as [r Hr]. rewrite Hr, skipn_app_length.
        apply IH.
        -- assert (Hl : length (c :: s') = length (sep ++ r)) by now rewrite Hr.
           rewrite length_app in Hl. simpl in Hl, Hlen.
           destruct sep; [congruence | simpl in Hl; lia].
        -- intros k Hk. simpl in Hk. lia.
      * apply IH; [simpl in Hlen; lia | now apply matchFree_step].
Qed.

Lemma split_free (s sep : jsstring) :
  sep <> [] -> Forall (occurrenceFree sep) (split s sep).
Proof.
  intros Hsep. unfold split. destruct sep as [|d sep']; [congruence|].
  apply split_scan_free; [exact Hsep | lia |].
  intros k Hk. simpl in Hk. lia.
Qed.

(** One sentence per fragment: for a non-empty delimiter every fragment is
    a non-empty piece that holds no occurrence of the delimiter, followed
    by the delimiter. *)
Theorem fragments_hold_one_sentence (delimiter : jsstring)
    (result : OcrResult.Root) :
  delimiter <> [] ->
  Forall (fun f => exists piece,
            f = piece ++ delimiter /\ piece <> [] /\
            occurrenceFree delimiter piece)
         (splitSentences delimiter result).
Proof.
  intros Hd. unfold splitSentences.
  set (stream := join (collectTexts delimiter result)).
  pose proof (split_pieces stream delimiter Hd) as Hends.
  pose proof (split_free stream delimiter Hd) as Hfree.
  rewrite Forall_forall in Hends, Hfree |- *.
  intros f Hf. apply in_map_iff in Hf as [x [<- Hx]].
  apply filter_In in Hx as [Hx Hne].
  exists x. rewrite (Hends x Hx).
  split; [reflexivity|]. split; [|now apply Hfree].
  destruct x; [discriminate Hne | discriminate].
Qed.

Lemma fragments_hold_one_sentence_witness :
  str "." <> [] /\
  Forall (fun f => exists piece,
            f = piece ++ str "." /\ piece <> [] /\
            occurrenceFree (str ".") piece)
         [str "Hello."; str "World."].
Proof.
  assert (Hd : str "." <> []) by discriminate.
  split; [exact Hd|].
  exact (fragments_hold_one_sentence (str ".") threeWords Hd).
Defined.





End SegmenterInvariants.

(** ** Further properties of the speech stage *)

Module SpeechInvariants.

Import JS TextToSpeechTask SpeechSynthesisStage.

(** The call [ttsRequest(chunk, outputPath)] of job [j]. *)
Definition callOf (j : Job) : TtsCall :=
  {| callText := jobText j; callPath := jobPath j |}.

(** The calls of a trace that write to [path]. *)
Definition callsFor (path : jsstring) (calls : list TtsCall) : list TtsCall :=
  filter (fun c => eqb (callPath c) path) calls.

(** The jobs of a plan whose output the listing does not cover. *)
Definition pending (existFiles : list jsstring) (jobs : list Job) : list Job :=
  filter (fun j => negb (covered existFiles j)) jobs.

(** An environment over the three-word document in which every synthesis
    call succeeds. *)
Definition workingEnv (existing : list jsstring) : Env :=
  {| listFiles := fun _ => Resolved existing;
     readOcrJson := fun _ => Resolved SentenceSegmenter.threeWords;
     speech := fun _ _ => Resolved tt |}.

(** Case analysis on the attempts of job [j], closing the goals in which
    the job has settled. *)
Ltac settle_attempt env j count :=
  destruct (speech env (jobPath j) count);
  try solve [cbn; intros; congruence].

Lemma runJob_resolved (env : Env) (existFiles : list jsstring) (j : Job)
    (p : jsstring) :
  snd (runJob env existFiles j) = Resolved p -> p = jobPath j.
Proof.
  unfold runJob, promiseRetry.
  destruct (existsb (fun f => endsWith f (jobPath j)) existFiles);
    [cbn; congruence|].
  cbn [promiseRetry_from Nat.ltb Nat.leb ttsRequest].
  settle_attempt env j 1. settle_attempt env j 2. settle_attempt env j 3.
  settle_attempt env j 4. settle_attempt env j 5.
Qed.

Lemma all_Resolved_inv (A : Type) (ps : list (outcome A)) (l : list A) :
  all ps = Resolved l -> ps = map Resolved l.
Proof.
  revert l. induction ps as [|p ps IH]; intros l H.
  - simpl in H. now injection H as <-.
  - destruct p as [a|e]; [|discriminate]. simpl in H.
    destruct (all ps) as [l'|e] eqn:Hps; [|discriminate].
    injection H as <-. simpl. now rewrite (IH l' eq_refl).
Qed.

Lemma all_Rejected_inv (A : Type) (ps : list (outcome A)) (e : jsstring) :
  all ps = Rejected e -> In (Rejected e) ps.
Proof.
  induction ps as [|p ps IH]; intros H; [discriminate|].
  destruct p as [a|e0]; simpl in H.
  - destruct (all ps) as [l'|e1] eqn:Hps; [discriminate|].
    injection H as <-. right. now apply IH.
  - injection H as <-. now left.
Qed.

Lemma jobs_resolved (env : Env) (existFiles : list jsstring) (jobs : list Job) :
  forall l,
    map snd (map (runJob env existFiles) jobs) = map Resolved l ->
    l = map jobPath jobs.
Proof.
  induction jobs as [|j jobs IH]; intros [|p l] H; try discriminate; [reflexivity|].
  cbn [map] in H. injection H as Hp Hl.
  cbn [map]. f_equal; [now apply runJob_resolved in Hp | now apply IH].
Qed.

Lemma jobs_calls (env : Env) (existFiles : list jsstring) (jobs : list Job) :
  Forall (fun c => exists j, In j jobs /\ covered existFiles j = false /\ c = callOf j)
         (flat_map fst (map (runJob env existFiles) jobs)) /\
  length (flat_map fst (map (runJob env existFiles) jobs))
  <= 5 * length (pending existFiles jobs).
Proof.
  induction jobs as [|j jobs [IHf IHl]]; [split; [constructor | simpl; lia]|].
  cbn [map flat_map]. unfold pending in *. cbn [filter].
  destruct (covered existFiles j) eqn:Hc.
  - rewrite (runJob_covered env existFiles j Hc). cbn [fst app negb]. split; [|exact IHl].
    eapply Forall_impl; [|exact IHf].
    intros c [j' [Hin H]]. exists j'. split; [now right | exact H].
  - destruct (runJob_calls env existFiles j Hc) as [Hle Hown].
    cbn [negb length]. rewrite length_app. split; [|lia].
    apply Forall_app. split.
    + eapply Forall_impl; [|exact Hown].
      intros c ->. exists j. split; [now left|]. now split.
    + eapply Forall_impl; [|exact IHf].
      intros c [j' [Hin H]]. exists j'. split; [now right | exact H].
Qed.

Lemma runJob_own_calls (env : Env) (existFiles : list jsstring) (j : Job) :
  Forall (fun c => c = callOf j) (fst (runJob env existFiles j)).
Proof.
  destruct (covered existFiles j) eqn:Hc.
  - rewrite (runJob_covered env existFiles j Hc). constructor.
  - apply (runJob_calls env existFiles j Hc).
Qed.

Lemma callsFor_own (env : Env) (existFiles : list jsstring) (j : Job) :
  callsFor (jobPath j) (fst (runJob env existFiles j))
  = fst (runJob env existFiles j).
Proof.
  pose proof (runJob_own_calls env existFiles j) as H. unfold callsFor.
  induction H as [|c l Hc _ IH]; [reflexivity|].
  cbn [filter]. rewrite Hc at 1. cbn [callOf callPath].
  now rewrite eqb_refl, IH.
Qed.

Lemma callsFor_other (env : Env) (existFiles : list jsstring) (j : Job)
    (path : jsstring) :
  jobPath j <> path -> callsFor path (fst (runJob env existFiles j)) = [].
Proof.
  intros Hne. pose proof (runJob_own_calls env existFiles j) as H. unfold callsFor.
  induction H as [|c l Hc _ IH]; [reflexivity|].
  cbn [filter]. rewrite Hc at 1. cbn [callOf callPath].
  destruct (eqb (jobPath j) path) eqn:He; [|exact IH].
  apply eqb_eq in He. contradiction.
Qed.

Lemma callsFor_none (env : Env) (existFiles : list jsstring)
    (jobs : list Job) (path : jsstring) :
  ~ In path (map jobPath jobs) ->
  callsFor path (flat_map fst (map (runJob env existFiles) jobs)) = [].
Proof.
  induction jobs as [|j0 jobs IH]; intros Hnot; [reflexivity|].
  cbn [map flat_map]. unfold callsFor in *. rewrite filter_app.
  fold (callsFor path (fst (runJob env existFiles j0))).
  rewrite callsFor_other by (intros H; apply Hnot; now left).
  apply IH. intros H. apply Hnot. now right.
Qed.

(** With pairwise distinct output paths, the calls of a trace of [run] that
    write to the path of a job are the calls of that job. *)
Lemma callsFor_job (env : Env) (existFiles : list jsstring) (jobs : list Job)
    (j : Job) :
  NoDup (map jobPath jobs) -> In j jobs ->
  callsFor (jobPath j) (flat_map fst (map (runJob env existFiles) jobs))
  = fst (runJob env existFiles j).
Proof.
  induction jobs as [|j0 jobs IH]; intros Hnd Hin; [contradiction|].
  cbn [map] in Hnd. inversion Hnd as [|? ? Hnot Hnd']; subst.
  cbn [map flat_map]. unfold callsFor. rewrite filter_app.
  fold (callsFor (jobPath j) (fst (runJob env existFiles j0))).
  fold (callsFor (jobPath j) (flat_map fst (map (runJob env existFiles) jobs))).
  destruct Hin as [->|Hin].
  - rewrite callsFor_own, (callsFor_none env existFiles jobs (jobPath j) Hnot).
    apply app_nil_r.
  - rewrite callsFor_other.
    + now apply IH.
    + intros Heq. apply Hnot. rewrite Heq. now apply in_map.
Qed.

Lemma plan_NoDup (texts : list jsstring) (outputPrefix : jsstring)
    (fuel : nat) (jobs : list Job) :
  planJobs fuel texts outputPrefix 0 0 = Some jobs ->
  NoDup (map jobPath jobs).
Proof.
  intros Hp. rewrite (planJobs_paths texts outputPrefix fuel 0 0 jobs Hp).
  apply Finite.Injective_map_NoDup; [|apply seq_NoDup].
  intros n m H. now apply (ChunkInvariants.getOutputPath_inj outputPrefix n m).
Qed.

Lemma Job_eq_dec (a b : Job) : {a = b} + {a <> b}.
Proof.
  destruct a as [t1 p1], b as [t2 p2].
  destruct (list_eq_dec N.eq_dec t1 t2) as [->|Ht];
    [|right; intros H; injection H as H1 H2; contradiction].
  destruct (list_eq_dec N.eq_dec p1 p2) as [->|Hp];
    [left; reflexivity | right; intros H; injection H as H1; contradiction].
Qed.

(** When one job rejects and every other job resolves, [Promise.all]
    rejects with the reason of that job. *)
Lemma all_single_rejection (env : Env) (existFiles : list jsstring)
    (jobs : list Job) (j : Job) (reason : jsstring) :
  In j jobs ->
  snd (runJob env existFiles j) = Rejected reason ->
  (forall j', In j' jobs -> j' <> j ->
              exists p, snd (runJob env existFiles j') = Resolved p) ->
  all (map snd (map (runJob env existFiles) jobs)) = Rejected reason.
Proof.
  induction jobs as [|j0 jobs IH]; intros Hin Hrej Hothers; [contradiction|].
  cbn [map all]. destruct (Job_eq_dec j0 j) as [->|Hne].
  - now rewrite Hrej.
  - destruct (Hothers j0 (or_introl eq_refl) Hne) as [p ->].
    rewrite IH; [reflexivity | | exact Hrej |].
    + destruct Hin as [H|H]; [contradiction | exact H].
    + intros j' Hj'. apply Hothers. now right.
Qed.

(** Frame and order of [run]: [ttsRequest] is only ever called for jobs the
    listing does not cover, with the job's own chunk and path; the trace
    holds no call for the path of a covered job and at most 5 calls for the
    path of each other job; when [run] resolves, its result is the planned
    output paths in submission order, whatever was skipped; when it
    rejects, a job that was not covered rejected. *)
Theorem run_frame_and_order (delimiter : jsstring) (env : Env) (fuel : nat)
    (gcsPaths : list jsstring) (outputPrefix : jsstring)
    (existFiles : list jsstring) (textsList : list (list jsstring))
    (jobs : list Job) :
  listFiles env outputPrefix = Resolved existFiles ->
  all (map (readOcrOuputJson delimiter env) gcsPaths) = Resolved textsList ->
  planJobs fuel (concat textsList) outputPrefix 0 0 = Some jobs ->
  exists calls o,
    run delimiter env fuel gcsPaths outputPrefix = Some (calls, o) /\
    Forall (fun c => exists j,
              In j jobs /\ covered existFiles j = false /\ c = callOf j) calls /\
    length calls <= 5 * length (pending existFiles jobs) /\
    (forall j, In j jobs ->
       (covered existFiles j = true -> callsFor (jobPath j) calls = []) /\
       (covered existFiles j = false ->
        length (callsFor (jobPath j) calls) <= 5)) /\
    (forall l, o = Resolved l -> l = map jobPath jobs) /\
    (forall e, o = Rejected e ->
       exists j, In j (pending existFiles jobs) /\
                 snd (runJob env existFiles j) = Rejected e).
Proof.
  intros Hl Hr Hp.
  rewrite (run_unfold delimiter env fuel gcsPaths outputPrefix
             existFiles textsList jobs Hl Hr Hp).
  destruct (jobs_calls env existFiles jobs) as [Hframe Hcount].
  pose proof (plan_NoDup (concat textsList) outputPrefix fuel jobs Hp) as Hnd.
  eexists. eexists. split; [reflexivity|].
  split; [exact Hframe|]. split; [exact Hcount|]. split.
  { intros j Hj. rewrite (callsFor_job env existFiles jobs j Hnd Hj). split.
    - intros Hc. now rewrite (runJob_covered env existFiles j Hc).
    - intros Hc. apply (runJob_calls env existFiles j Hc). }
  split.
  - intros l Hres. apply all_Resolved_inv in Hres.
    now apply (jobs_resolved env existFiles jobs).
  - intros e Hrej. apply all_Rejected_inv in Hrej.
    rewrite map_map in Hrej. apply in_map_iff in Hrej as [j [Hj Hin]].
    exists j. split; [|exact Hj].
    apply filter_In. split; [exact Hin|].
    destruct (covered existFiles j) eqn:Hc; [|reflexivity].
    rewrite (runJob_covered env existFiles j Hc) in Hj. discriminate.
Qed.

Lemma run_frame_and_order_witness :
  planJobs 2 (concat [[str "Hello."; str "World."]]) prefix 0 0 = Some [firstJob] /\
  run (str ".") (workingEnv []) 2 [shard] prefix
  = Some ([callOf firstJob], Resolved [str "dev/mp3/b/output-001.mp3"]) /\
  exists calls o,
    run (str ".") (workingEnv []) 2 [shard] prefix = Some (calls, o) /\
    length calls <= 5 * length (pending [] [firstJob]) /\
    length (callsFor (jobPath firstJob) calls) <= 5 /\
    (forall l, o = Resolved l -> l = map jobPath [firstJob]).
Proof.
  assert (Hp : planJobs 2 (concat [[str "Hello."; str "World."]]) prefix 0 0
               = Some [firstJob]) by (vm_compute; reflexivity).
  split; [exact Hp|]. split; [vm_compute; reflexivity|].
  destruct (run_frame_and_order (str ".") (workingEnv []) 2 [shard] prefix
              [] [[str "Hello."; str "World."]] [firstJob])
    as [calls [o [Hrun [_ [Hcount [Hper [Hres _]]]]]]].
  - reflexivity.
  - vm_compute. reflexivity.
  - exact Hp.
  - exists calls, o. split; [exact Hrun|]. split; [exact Hcount|].
    split; [|exact Hres].
    now apply (Hper firstJob (or_introl eq_refl)).
Defined.

(** C6: in [run], a job whose output path the listing does not cover makes
    at most 5 [ttsRequest] calls, all for its own chunk and path: the trace
    of [run] holds at most 5 calls for that path.  When its five attempts
    are rejected the job has made exactly 5 calls and rejects with "gave up
    after 5 retry"; [run] then rejects, with the reason of a rejected job,
    and when every other job resolves that reason is "gave up after 5
    retry" and the trace holds exactly 5 calls for the path. *)
Theorem run_retry_bound (delimiter : jsstring) (env : Env) (fuel : nat)
    (gcsPaths : list jsstring) (outputPrefix : jsstring)
    (existFiles : list jsstring) (textsList : list (list jsstring))
    (jobs : list Job) (j : Job) :
  listFiles env outputPrefix = Resolved existFiles ->
  all (map (readOcrOuputJson delimiter env) gcsPaths) = Resolved textsList ->
  planJobs fuel (concat textsList) outputPrefix 0 0 = Some jobs ->
  In j jobs ->
  covered existFiles j = false ->
  exists calls o,
    run delimiter env fuel gcsPaths outputPrefix = Some (calls, o) /\
    length (fst (runJob env existFiles j)) <= 5 /\
    length (callsFor (jobPath j) calls) <= 5 /\
    Forall (fun c => c = callOf j) (callsFor (jobPath j) calls) /\
    ((forall count, 1 <= count <= 5 ->
        exists e, speech env (jobPath j) count = Rejected e) ->
     length (fst (runJob env existFiles j)) = 5 /\
     snd (runJob env existFiles j) = Rejected (str "gave up after 5 retry") /\
     (exists e j',
        o = Rejected e /\ In j' jobs /\ covered existFiles j' = false /\
        snd (runJob env existFiles j') = Rejected e) /\
     ((forall j', In j' jobs -> j' <> j ->
                  exists p, snd (runJob env existFiles j') = Resolved p) ->
      o = Rejected (str "gave up after 5 retry") /\
      length (callsFor (jobPath j) calls) = 5)).
Proof.
  intros Hl Hr Hp Hin Hc.
  rewrite (run_unfold delimiter env fuel gcsPaths outputPrefix
             existFiles textsList jobs Hl Hr Hp).
  pose proof (plan_NoDup (concat textsList) outputPrefix fuel jobs Hp) as Hnd.
  destruct (runJob_calls env existFiles j Hc) as [Hle Hown].
  eexists. eexists. split; [reflexivity|].
  rewrite (callsFor_job env existFiles jobs j Hnd Hin).
  split; [exact Hle|]. split; [exact Hle|]. split; [exact Hown|].
  intros Hfail.
  destruct (runJob_gives_up env existFiles j Hc Hfail) as [Hfive Hrej].
  split; [exact Hfive|]. split; [exact Hrej|]. split.
  - destruct (all_Rejected _ (map snd (map (runJob env existFiles) jobs))
                (str "gave up after 5 retry")) as [e He].
    { rewrite <- Hrej. apply in_map, in_map. exact Hin. }
    pose proof (all_Rejected_inv _ _ e He) as Hsome.
    rewrite map_map in Hsome. apply in_map_iff in Hsome as [j' [Hj' Hin']].
    exists e, j'. split; [exact He|]. split; [exact Hin'|]. split; [|exact Hj'].
    destruct (covered existFiles j') eqn:Hc'; [|reflexivity].
    rewrite (runJob_covered env existFiles j' Hc') in Hj'. discriminate.
  - intros Hothers. split; [|exact Hfive].
    now apply all_single_rejection with (j := j).
Qed.

Lemma run_retry_bound_witness :
  planJobs 2 (concat [[str "Hello."; str "World."]]) prefix 0 0 = Some [firstJob] /\
  covered [] firstJob = false /\
  run (str ".") (failingEnv []) 2 [shard] prefix
  = Some (repeat (callOf firstJob) 5, Rejected (str "gave up after 5 retry")) /\
  exists calls o,
    run (str ".") (failingEnv []) 2 [shard] prefix = Some (calls, o) /\
    o = Rejected (str "gave up after 5 retry") /\
    length (callsFor (jobPath firstJob) calls) = 5.
Proof.
  assert (Hp : planJobs 2 (concat [[str "Hello."; str "World."]]) prefix 0 0
               = Some [firstJob]) by (vm_compute; reflexivity).
  assert (Hc : covered [] firstJob = false) by reflexivity.
  split; [exact Hp|]. split; [exact Hc|]. split; [vm_compute; reflexivity|].
  destruct (run_retry_bound (str ".") (failingEnv []) 2 [shard] prefix
              [] [[str "Hello."; str "World."]] [firstJob] firstJob)
    as [calls [o [Hrun [_ [_ [_ Hfail]]]]]].
  - reflexivity.
  - vm_compute. reflexivity.
  - exact Hp.
  - left. reflexivity.
  - exact Hc.
  - exists calls, o. split; [exact Hrun|].
    apply Hfail.
    + intros count _. exists (str "UNAVAILABLE"). reflexivity.
    + intros j' [<-|[]] Hne. contradiction.
Defined.

End SpeechInvariants.

(** ** Further properties of the audio merger *)

Module MergeInvariants.

Import JS ConcatMp3Task AudioMerger.




Lemma groupCount_le_pow (n k : nat) :
  n <= maxCombine ^ S k -> groupCount n <= maxCombine ^ k.
Proof.
  unfold groupCount. rewrite maxCombine_eq. change (32 - 1) with 31.
  rewrite Nat.pow_succ_r'. intros Hn.
  apply Nat.lt_succ_r. apply Nat.Div0.div_lt_upper_bound. lia.
Qed.

Lemma groupCount_gt_pow (n k : nat) :
  maxCombine ^ S k < n -> maxCombine ^ k < groupCount n.
Proof.
  unfold groupCount. rewrite maxCombine_eq. change (32 - 1) with 31.
  rewrite Nat.pow_succ_r'. intros Hn.
  apply Nat.div_le_lower_bound; lia.
Qed.

Lemma run_within_depth (env : Env) (outputPath : jsstring) :
  (forall s d, copy env s d = Resolved tt) ->
  (forall srcs d, combine env srcs d = Resolved tt) ->
  forall (k : nat) (files : list jsstring),
    1 <= length files <= maxCombine ^ k ->
    exists calls final,
      run (S k) env files outputPath
      = Some (calls ++ [Copy final outputPath], Resolved outputPath).
Proof.
  intros Hcopy Hcomb. induction k as [|k IH]; intros files Hn.
  - destruct files as [|f [|f2 rest]]; simpl in Hn; try lia.
    exists [], f. cbn [run]. now rewrite Hcopy.
  - destruct (Nat.eq_dec (length files) 1) as [H1|H1].
    + destruct files as [|f [|f2 rest]]; try discriminate H1.
      exists [], f. cbn [run]. now rewrite Hcopy.
    + rewrite (run_level env outputPath files (S k) Hcomb) by lia.
      destruct (groups_spec files) as [Hlen _].
      pose proof (groupCount_lt (length files)) as Hlt.
      pose proof (groupCount_le_pow (length files) k) as Hpow.
      destruct (IH (map (intermediate env) (groups files))) as [calls [final Hrun]];
        [rewrite length_map, Hlen; lia|].
      rewrite Hrun. exists (levelCalls env (groups files) ++ calls), final.
      now rewrite app_assoc.
Qed.

Lemma run_beyond_depth (env : Env) (outputPath : jsstring) :
  (forall srcs d, combine env srcs d = Resolved tt) ->
  forall (k : nat) (files : list jsstring),
    maxCombine ^ k < length files ->
    run (S k) env files outputPath = None.
Proof.
  intros Hcomb. induction k as [|k IH]; intros files Hn.
  - change (maxCombine ^ 0) with 1 in Hn.
    rewrite (run_level env outputPath files 0 Hcomb) by lia. reflexivity.
  - assert (H2 : 2 <= length files).
    { pose proof (Nat.pow_nonzero maxCombine (S k)) as Hnz.
      rewrite maxCombine_eq in *. lia. }
    rewrite (run_level env outputPath files (S k) Hcomb H2).
    destruct (groups_spec files) as [Hlen _].
    rewrite IH; [reflexivity|].
    rewrite length_map, Hlen. now apply groupCount_gt_pow.
Qed.

(** Depth of the merge: with no storage failure, [run] on [N >= 1] files
    finishes within [k] levels of combining followed by the copy exactly
    when [N <= 32 ^ k]; the recursion is [ceil(log_32 N)] levels deep. *)
Theorem merge_depth (env : Env) (outputPath : jsstring) (k : nat)
    (files : list jsstring) :
  (forall s d, copy env s d = Resolved tt) ->
  (forall srcs d, combine env srcs d = Resolved tt) ->
  1 <= length files ->
  (length files <= maxCombine ^ k ->
   exists calls final,
     run (S k) env files outputPath
     = Some (calls ++ [Copy final outputPath], Resolved outputPath)) /\
  (maxCombine ^ k < length files -> run (S k) env files outputPath = None).
Proof.
  intros Hcopy Hcomb Hn. split.
  - intros Hle. apply run_within_depth; [exact Hcopy | exact Hcomb | lia].
  - intros Hgt. now apply run_beyond_depth.
Qed.

Lemma merge_depth_witness :
  1 <= length (segments 65) /\
  length (segments 65) <= maxCombine ^ 2 /\
  maxCombine ^ 1 < length (segments 65) /\
  (exists calls final,
     run 3 reliable (segments 65) (str "dev/out/b.mp3")
     = Some (calls ++ [Copy final (str "dev/out/b.mp3")],
             Resolved (str "dev/out/b.mp3"))) /\
  run 2 reliable (segments 65) (str "dev/out/b.mp3") = None.
Proof.
  assert (Hlen : length (segments 65) = 65) by (vm_compute; reflexivity).
  assert (H1 : 1 <= length (segments 65)) by (rewrite Hlen; lia).
  assert (H2 : length (segments 65) <= maxCombine ^ 2)
    by (rewrite Hlen; apply Nat.leb_le; vm_compute; reflexivity).
  assert (H3 : maxCombine ^ 1 < length (segments 65))
    by (rewrite Hlen; apply Nat.ltb_lt; vm_compute; reflexivity).
  split; [exact H1|]. split; [exact H2|]. split; [exact H3|].
  split.
  - exact (proj1 (merge_depth reliable (str "dev/out/b.mp3") 2 (segments 65)
                    (fun _ _ => eq_refl) (fun _ _ => eq_refl) H1) H2).
  - exact (proj2 (merge_depth reliable (str "dev/out/b.mp3") 1 (segments 65)
                    (fun _ _ => eq_refl) (fun _ _ => eq_refl) H1) H3).
Defined.






End MergeInvariants.

(** ** Names of the intermediate files of the merge *)

Module MergeNaming.

Import JS ConcatMp3Task ChunkInvariants.

(** [dir/concat-s-e.mp3] *)
Definition rangeName (dir s e : jsstring) : jsstring :=
  dir ++ str "/concat-" ++ s ++ str "-" ++ e ++ str ".mp3".

(** A three-digit index. *)
Definition isIndex (s : jsstring) : Prop :=
  length s = 3 /\ forallb Re.isDigit s = true.

(** A directory name with no line terminator and no ["-"] that three
    digits follow. *)
Definition plainDir (dir : jsstring) : Prop :=
  existsb Re.isLineTerminator dir = false /\ Re.afterDash dir = None.

Definition checkIndex (n : nat) : bool :=
  (length (suffixOf n) =? 3) && forallb Re.isDigit (suffixOf n).

Lemma isIndex_digits (s : jsstring) :
  isIndex s ->
  exists a b c, s = [a; b; c] /\
    Re.isDigit a = true /\ Re.isDigit b = true /\ Re.isDigit c = true.
Proof.
  intros [Hlen Hd].
  destruct s as [|a [|b [|c [|x s']]]]; try discriminate Hlen.
  cbn [forallb] in Hd. rewrite !andb_true_iff in Hd.
  exists a, b, c. tauto.
Qed.

Lemma digit_not_terminator (c : N) :
  Re.isDigit c = true -> Re.isLineTerminator c = false.
Proof.
  unfold Re.isDigit, Re.isLineTerminator.
  rewrite andb_true_iff, !N.leb_le. intros [Hlo Hhi].
  rewrite !orb_false_iff, !N.eqb_neq. lia.
Qed.

Lemma index_no_terminator (s : jsstring) :
  isIndex s -> existsb Re.isLineTerminator s = false.
Proof.
  intros H. destruct (isIndex_digits s H) as [a [b [c [-> [Ha [Hb Hc]]]]]].
  cbn [existsb]. now rewrite !digit_not_terminator.
Qed.

Lemma suffixOf_index (n : nat) : n < 1000 -> isIndex (suffixOf n).
Proof.
  intros Hn.
  assert (Hall : forallb checkIndex (seq 0 1000) = true) by (vm_compute; reflexivity).
  rewrite forallb_forall in Hall.
  specialize (Hall n). unfold checkIndex in Hall.
  rewrite andb_true_iff, Nat.eqb_eq in Hall.
  apply Hall. apply in_seq. lia.
Qed.

Lemma threeDigits_app (a b : jsstring) (c : N) :
  Re.isDigit c = false -> Re.threeDigits (a ++ c :: b) = Re.threeDigits a.
Proof.
  intros Hc. destruct a as [|x [|y [|z a']]]; cbn [app Re.threeDigits].
  - destruct b as [|? [|? ?]]; [reflexivity | reflexivity | now rewrite Hc].
  - destruct b; [reflexivity | now rewrite Hc, andb_false_r].
  - now rewrite Hc, andb_false_r.
  - reflexivity.
Qed.

Lemma afterDash_app (p b : jsstring) (c : N) :
  Re.isDigit c = false ->
  Re.afterDash (p ++ c :: b)
  = match Re.afterDash p with
    | Some d => Some d
    | None => Re.afterDash (c :: b)
    end.
Proof.
  intros Hc. induction p as [|x p IH]; [reflexivity|].
  cbn [app Re.afterDash]. rewrite threeDigits_app by exact Hc. rewrite IH.
  destruct (if (x =? 45)%N then Re.threeDigits p else None); reflexivity.
Qed.

Lemma afterDash_word (word rest : jsstring) (a b c : N) :
  existsb (N.eqb 45) word = false ->
  Re.isDigit a = true -> Re.isDigit b = true -> Re.isDigit c = true ->
  Re.afterDash (word ++ 45%N :: a :: b :: c :: rest) = Some [a; b; c].
Proof.
  intros Hw Ha Hb Hc. induction word as [|x word IH].
  - cbn [app Re.afterDash Re.threeDigits]. now rewrite N.eqb_refl, Ha, Hb, Hc.
  - cbn [existsb] in Hw. apply orb_false_iff in Hw as [Hx Hw].
    cbn [app Re.afterDash]. rewrite N.eqb_sym in Hx. rewrite Hx. now apply IH.
Qed.

(** The first index of a name [dir/<word>-sss...] whose word has no dash. *)
Lemma replaceFirstIndex_name (dir word s rest : jsstring) :
  plainDir dir -> isIndex s ->
  existsb Re.isLineTerminator word = false ->
  existsb Re.isLineTerminator rest = false ->
  existsb (N.eqb 45) word = false ->
  Re.replaceFirstIndex (dir ++ [47%N] ++ word ++ [45%N] ++ s ++ rest) = s.
Proof.
  intros [Hlt Hdash] Hs Hw Hr Hword.
  pose proof (index_no_terminator s Hs) as Hst.
  destruct (isIndex_digits s Hs) as [a [b [c [-> [Ha [Hb Hc]]]]]].
  unfold Re.replaceFirstIndex.
  rewrite !existsb_app, Hlt, Hw, Hst, Hr. cbn [existsb orb].
  change (Re.isLineTerminator 47) with false.
  change (Re.isLineTerminator 45) with false. cbn [orb app].
  rewrite (afterDash_app dir (word ++ 45%N :: a :: b :: c :: rest) 47%N eq_refl), Hdash.
  change (47%N :: word ++ 45%N :: a :: b :: c :: rest)
    with ((47%N :: word) ++ 45%N :: a :: b :: c :: rest).
  rewrite afterDash_word; [reflexivity | | exact Ha | exact Hb | exact Hc].
  cbn [existsb]. now rewrite Hword.
Qed.

(** The last index of a name [...sss.mp3]. *)
Lemma replaceLastIndex_name (front s : jsstring) :
  existsb Re.isLineTerminator front = false -> isIndex s ->
  Re.replaceLastIndex (front ++ s ++ str ".mp3") = s.
Proof.
  intros Hf Hs.
  pose proof (index_no_terminator s Hs) as Hst.
  destruct (isIndex_digits s Hs) as [a [b [c [-> [Ha [Hb Hc]]]]]].
  unfold Re.replaceLastIndex.
  rewrite !existsb_app, Hf, Hst. cbn [orb].
  change (existsb Re.isLineTerminator (str ".mp3")) with false. cbv iota.
  assert (He : endsWith (front ++ [a; b; c] ++ str ".mp3") (str ".mp3") = true).
  { apply endsWith_app. exists (front ++ [a; b; c]). now rewrite <- app_assoc. }
  rewrite He. cbn [andb].
  assert (Hlen : length (front ++ [a; b; c] ++ str ".mp3") = length front + 7)
    by (rewrite length_app; reflexivity).
  rewrite Hlen.
  replace (7 <=? length front + 7) with true by (symmetry; apply Nat.leb_le; lia).
  replace (length front + 7 - 7) with (length front) by lia.
  rewrite SentenceSegmenter.skipn_app_length.
  cbn [app Re.threeDigits]. now rewrite Ha, Hb, Hc.
Qed.

Lemma getConcatFilePath_ends (env : Env) (group : list jsstring)
    (first final : jsstring) :
  hd_error group = Some first -> last group [] = final ->
  getConcatFilePath env group
  = Some (dirname env first ++ str "/concat-" ++ Re.replaceFirstIndex first
          ++ str "-" ++ Re.replaceLastIndex final ++ str ".mp3").
Proof.
  intros Hhd Hlast. destruct group as [|f group']; [discriminate|].
  cbn [hd_error] in Hhd. injection Hhd as ->.
  cbn [getConcatFilePath]. now rewrite Hlast.
Qed.

(** Names of the intermediate files: under a plain directory, a group that
    runs from segment [output-a.mp3] to segment [output-b.mp3] (numbers
    below 1000) is combined into [concat-a-b.mp3], and a group that runs
    from [concat-s1-e1.mp3] to [concat-s2-e2.mp3] into [concat-s1-e2.mp3],
    in the directory [dirname] gives for the first member. *)
Theorem intermediate_names (env : Env) (dir : jsstring) :
  plainDir dir ->
  (forall group a b,
     a < 1000 -> b < 1000 ->
     hd_error group = Some (TextToSpeechTask.getOutputPath dir a) ->
     last group [] = TextToSpeechTask.getOutputPath dir b ->
     getConcatFilePath env group
     = Some (rangeName (dirname env (TextToSpeechTask.getOutputPath dir a))
                       (suffixOf a) (suffixOf b))) /\
  (forall group s1 e1 s2 e2,
     isIndex s1 -> isIndex e1 -> isIndex s2 -> isIndex e2 ->
     hd_error group = Some (rangeName dir s1 e1) ->
     last group [] = rangeName dir s2 e2 ->
     getConcatFilePath env group
     = Some (rangeName (dirname env (rangeName dir s1 e1)) s1 e2)).
Proof.
  intros Hdir. pose proof Hdir as [Hlt _]. split.
  - intros group a b Ha Hb Hhd Hlast.
    rewrite (getConcatFilePath_ends env group _ _ Hhd Hlast).
    rewrite !getOutputPath_suffixOf.
    change (Re.replaceFirstIndex (dir ++ str "/output-" ++ suffixOf a ++ str ".mp3"))
      with (Re.replaceFirstIndex
              (dir ++ [47%N] ++ str "output" ++ [45%N] ++ suffixOf a ++ str ".mp3")).
    rewrite (replaceFirstIndex_name dir (str "output") (suffixOf a) (str ".mp3") Hdir
               (suffixOf_index a Ha) eq_refl eq_refl eq_refl).
    assert (HL : Re.replaceLastIndex
                   (dir ++ str "/output-" ++ suffixOf b ++ str ".mp3")
                 = suffixOf b).
    { rewrite (app_assoc dir (str "/output-")).
      apply replaceLastIndex_name; [|now apply suffixOf_index].
      rewrite existsb_app, Hlt. reflexivity. }
    now rewrite HL.
  - intros group s1 e1 s2 e2 Hs1 He1 Hs2 He2 Hhd Hlast.
    rewrite (getConcatFilePath_ends env group _ _ Hhd Hlast).
    unfold rangeName at 2.
    change (Re.replaceFirstIndex
              (dir ++ str "/concat-" ++ s1 ++ str "-" ++ e1 ++ str ".mp3"))
      with (Re.replaceFirstIndex
              (dir ++ [47%N] ++ str "concat" ++ [45%N] ++ s1
               ++ str "-" ++ e1 ++ str ".mp3")).
    rewrite (replaceFirstIndex_name dir (str "concat") s1
               (str "-" ++ e1 ++ str ".mp3") Hdir Hs1 eq_refl).
    2:{ rewrite !existsb_app, (index_no_terminator e1 He1). reflexivity. }
    2:{ reflexivity. }
    assert (HL : Re.replaceLastIndex (rangeName dir s2 e2) = e2).
    { unfold rangeName.
      replace (dir ++ str "/concat-" ++ s2 ++ str "-" ++ e2 ++ str ".mp3")
        with ((dir ++ str "/concat-" ++ s2 ++ str "-") ++ e2 ++ str ".mp3")
        by (now rewrite <- !app_assoc).
      apply replaceLastIndex_name; [|exact He2].
      rewrite !existsb_app, Hlt, (index_no_terminator s2 Hs2). reflexivity. }
    now rewrite HL.
Qed.

Lemma intermediate_names_witness :
  plainDir (str "dev/mp3/b") /\
  getConcatFilePath reliable (firstn 32 (segments 65))
  = Some (str "dev/mp3/b/concat-001-032.mp3").
Proof.
  assert (Hdir : plainDir (str "dev/mp3/b")) by (split; reflexivity).
  split; [exact Hdir|].
  exact (proj1 (intermediate_names reliable (str "dev/mp3/b") Hdir)
           (firstn 32 (segments 65)) 1 32
           ltac:(apply Nat.ltb_lt; vm_compute; reflexivity)
           ltac:(apply Nat.ltb_lt; vm_compute; reflexivity)
           eq_refl ltac:(vm_compute; reflexivity)).
Defined.

End MergeNaming.

(** ** Further properties of [OcrTask] *)

Module OcrInvariants.

Import JS OcrTask.

(** The order the comparator of [run] induces on shard names. *)
Definition ordLe (a b : jsstring) : Prop := (compareOrd a b <= 0)%Z.

(** The name carries a number that binary64 holds exactly: [ord] is not
    [NaN] and is below [2^53] in absolute value, the range in which the
    integer of the model is the number [parseInt] returns. *)
Definition numbered (name : jsstring) : Prop :=
  exists z, ord name = Some z /\ (Z.abs z < 2 ^ 53)%Z.

(** A bucket with nothing under the output prefix in which the OCR call
    writes [written]. *)
Definition emptyBucket (written : list jsstring) : Env :=
  {| bucketName := str "pdf-audify";
     listFiles := fun _ => Resolved [];
     asyncBatchAnnotateFiles := fun _ _ => Resolved (fun _ => Resolved written) |}.

Lemma dropWhile_app (p : N -> bool) (a b : jsstring) :
  forallb p a = true -> Re.dropWhile p b = b ->
  Re.dropWhile p (a ++ b) = b.
Proof.
  intros Ha Hb. induction a as [|x a IH]; [exact Hb|].
  cbn [forallb] in Ha. apply andb_true_iff in Ha as [Hx Ha].
  cbn [app Re.dropWhile]. rewrite Hx. now apply IH.
Qed.

Lemma takeWhile_app (p : N -> bool) (a b : jsstring) :
  forallb p a = true -> Re.takeWhile p b = [] ->
  Re.takeWhile p (a ++ b) = a.
Proof.
  intros Ha Hb. induction a as [|x a IH]; [exact Hb|].
  cbn [forallb] in Ha. apply andb_true_iff in Ha as [Hx Ha].
  cbn [app Re.takeWhile]. rewrite Hx. f_equal. now apply IH.
Qed.

Lemma digit_cases (c : N) :
  Re.isDigit c = true ->
  (c = 48 \/ c = 49 \/ c = 50 \/ c = 51 \/ c = 52 \/
   c = 53 \/ c = 54 \/ c = 55 \/ c = 56 \/ c = 57)%N.
Proof.
  unfold Re.isDigit. rewrite andb_true_iff, !N.leb_le. lia.
Qed.

(** [parseInt] of a run of digits is its value. *)
Lemma parseInt10_digits (ds : jsstring) :
  ds <> [] -> forallb Re.isDigit ds = true ->
  parseInt10 ds = Some (digitsValue ds).
Proof.
  intros Hne Hd. destruct ds as [|x ds]; [congruence|].
  pose proof Hd as Hd'. cbn [forallb] in Hd'. apply andb_true_iff in Hd' as [Hx _].
  assert (Ht : Re.takeWhile Re.isDigit (x :: ds) = x :: ds).
  { rewrite <- (app_nil_r (x :: ds)) at 1. now apply takeWhile_app. }
  unfold parseInt10.
  destruct (digit_cases x Hx) as [->|[->|[->|[->|[->|[->|[->|[->|[->| ->]]]]]]]]];
    cbn [Re.dropWhile isWhiteSpace existsb N.eqb Pos.eqb orb andb N.leb N.compare
         Pos.compare Pos.compare_cont];
    rewrite Ht; now rewrite Z.mul_1_l.
Qed.

Lemma no_digit_takeWhile (s : jsstring) :
  forallb (fun c => negb (Re.isDigit c)) s = true ->
  Re.takeWhile Re.isDigit s = [].
Proof.
  destruct s as [|c s]; [reflexivity|]. cbn [forallb Re.takeWhile].
  intros H. apply andb_true_iff in H as [Hc _].
  apply negb_true_iff in Hc. now rewrite Hc.
Qed.

Lemma no_digit_dropWhile (p : N -> bool) (s : jsstring) :
  forallb (fun c => negb (Re.isDigit c)) s = true ->
  forallb (fun c => negb (Re.isDigit c)) (Re.dropWhile p s) = true.
Proof.
  induction s as [|c s IH]; [reflexivity|]. intros H.
  cbn [Re.dropWhile]. destruct (p c); [|exact H].
  cbn [forallb] in H. apply andb_true_iff in H as [_ H]. now apply IH.
Qed.

(** [parseInt] of a string without any digit is [NaN]. *)
Lemma parseInt10_no_digit (s : jsstring) :
  forallb (fun c => negb (Re.isDigit c)) s = true -> parseInt10 s = None.
Proof.
  intros H. unfold parseInt10.
  pose proof (no_digit_dropWhile isWhiteSpace s H) as H1.
  destruct (Re.dropWhile isWhiteSpace s) as [|c r]; [reflexivity|].
  pose proof (no_digit_takeWhile (c :: r) H1) as Hcr.
  cbn [forallb] in H1. apply andb_true_iff in H1 as [_ Hr].
  pose proof (no_digit_takeWhile r Hr) as Hr'.
  destruct (N.eq_dec c 45) as [->|H45]; [now rewrite Hr'|].
  destruct (N.eq_dec c 43) as [->|H43]; [now rewrite Hr'|].
  destruct c as [|q]; [cbv beta iota zeta; now rewrite Hcr|].
  do 6 (try destruct q as [q|q|]);
    first [ congruence | cbv beta iota zeta; now rewrite Hcr ].
Qed.

(** What [ord] reads: on a name without line terminator it is the value of
    the leftmost run of digits, wherever that run stands, as long as that
    value is below [2^53] (where [parseInt] is exact), and [NaN] when the
    name has no digit. *)
Theorem ord_reads_first_number (before digits after : jsstring) :
  existsb Re.isLineTerminator (before ++ digits ++ after) = false ->
  forallb (fun c => negb (Re.isDigit c)) before = true ->
  forallb Re.isDigit digits = true ->
  Re.takeWhile Re.isDigit after = [] ->
  (digits <> [] -> (digitsValue digits < 2 ^ 53)%Z ->
   ord (before ++ digits ++ after) = Some (digitsValue digits)) /\
  (digits = [] -> after = [] -> ord (before ++ digits ++ after) = None).
Proof.
  intros Hlt Hb Hd Ha. split.
  - intros Hne _. unfold ord, Re.replaceFirstNumber. rewrite Hlt.
    assert (Hdrop : Re.dropWhile (fun c => negb (Re.isDigit c)) (digits ++ after)
                    = digits ++ after).
    { destruct digits as [|x ds]; [congruence|].
      cbn [forallb] in Hd. apply andb_true_iff in Hd as [Hx _].
      cbn [app Re.dropWhile]. now rewrite Hx. }
    rewrite (dropWhile_app _ before (digits ++ after) Hb Hdrop).
    rewrite (takeWhile_app _ digits after Hd Ha).
    destruct digits as [|x ds] eqn:Hdigits; [congruence|].
    rewrite <- Hdigits in *. apply parseInt10_digits; [congruence | exact Hd].
  - intros -> ->. rewrite app_nil_r in *. unfold ord, Re.replaceFirstNumber.
    rewrite Hlt.
    assert (Hdrop : Re.dropWhile (fun c => negb (Re.isDigit c)) before = [])
      by (rewrite <- (app_nil_r before) at 1; now apply dropWhile_app).
    rewrite Hdrop. cbn [Re.takeWhile]. now apply parseInt10_no_digit.
Qed.

Lemma ord_reads_first_number_witness :
  ord (str "dev/json/vol2/output-11-to-15.json") = Some 2%Z.
Proof.
  exact (proj1 (ord_reads_first_number (str "dev/json/vol") (str "2")
                  (str "/output-11-to-15.json")
                  eq_refl eq_refl eq_refl eq_refl)
               ltac:(discriminate) eq_refl).
Defined.

Lemma insert_Permutation (cmp : jsstring -> jsstring -> Z) (x : jsstring)
    (l : list jsstring) :
  Permutation.Permutation (x :: l) (insert cmp x l).
Proof.
  induction l as [|y l IH]; [apply Permutation.Permutation_refl|].
  cbn [insert]. destruct (0 <? cmp y x)%Z; [apply Permutation.Permutation_refl|].
  eapply Permutation.perm_trans; [apply Permutation.perm_swap|].
  now apply Permutation.perm_skip.
Qed.

Lemma sort_fold_Permutation (cmp : jsstring -> jsstring -> Z)
    (files : list jsstring) :
  forall acc,
    Permutation.Permutation (files ++ acc)
      (fold_left (fun sorted x => insert cmp x sorted) files acc).
Proof.
  induction files as [|x files IH]; intros acc; [apply Permutation.Permutation_refl|].
  cbn [fold_left app].
  eapply Permutation.perm_trans; [|apply IH].
  eapply Permutation.perm_trans; [apply Permutation.Permutation_middle|].
  apply Permutation.Permutation_app_head. apply insert_Permutation.
Qed.

Lemma ordLe_above (x y z : jsstring) :
  (0 < compareOrd y x)%Z -> ordLe y z -> ordLe x y /\ ordLe x z.
Proof.
  unfold ordLe, compareOrd.
  destruct (ord x), (ord y), (ord z); lia.
Qed.

Lemma insert_sorted (x : jsstring) (l : list jsstring) :
  Sorted.StronglySorted ordLe l ->
  Sorted.StronglySorted ordLe (insert compareOrd x l).
Proof.
  induction 1 as [|y l Hs IH Hy]; [repeat constructor|].
  cbn [insert]. destruct (0 <? compareOrd y x)%Z eqn:Hc.
  - apply Z.ltb_lt in Hc. constructor; [now constructor|].
    constructor; [now apply (ordLe_above x y y Hc); unfold ordLe, compareOrd;
                  destruct (ord y); lia|].
    eapply Forall_impl; [|exact Hy].
    intros z Hz. now apply (ordLe_above x y z Hc).
  - apply Z.ltb_ge in Hc. constructor; [exact IH|].
    eapply Permutation.Permutation_Forall; [apply insert_Permutation|].
    constructor; [exact Hc | exact Hy].
Qed.

Lemma sort_fold_sorted (files : list jsstring) :
  forall acc,
    Sorted.StronglySorted ordLe acc ->
    Sorted.StronglySorted ordLe
      (fold_left (fun sorted x => insert compareOrd x sorted) files acc).
Proof.
  induction files as [|x files IH]; intros acc Hacc; [exact Hacc|].
  cbn [fold_left]. apply IH. now apply insert_sorted.
Qed.

(** A fresh OCR run: with nothing under the output prefix, [run] makes one
    provider call, from [gs://bucket/input] to [gs://bucket/prefix/], and
    resolves to the shards found afterwards, all of them, ordered by their
    numbers ([ord a <= ord b] for a name [a] returned before [b]).  Every
    shard name is taken to carry a number below [2^53]: [ord] is then the
    exact number the code computes and the comparator is a consistent
    order, the case in which the result of [sort] is determined. *)
Theorem fresh_run_sorted (env : Env) (inputFilePath outputPrefix : jsstring)
    (listAfter : jsstring -> outcome (list jsstring))
    (written : list jsstring) :
  listFiles env outputPrefix = Resolved [] ->
  asyncBatchAnnotateFiles env
    (str "gs://" ++ bucketName env ++ str "/" ++ inputFilePath)
    (str "gs://" ++ bucketName env ++ str "/" ++ outputPrefix ++ str "/")
  = Resolved listAfter ->
  listAfter outputPrefix = Resolved written ->
  Forall numbered written ->
  exists call files,
    run env inputFilePath outputPrefix = ([call], Resolved files) /\
    gcsSourceUri call = str "gs://" ++ bucketName env ++ str "/" ++ inputFilePath /\
    Permutation.Permutation written files /\
    Sorted.StronglySorted ordLe files /\
    (forall a b x y, ord a = Some x -> ord b = Some y ->
                     (ordLe a b <-> (x <= y)%Z)).
Proof.
  intros Hl Hocr Hafter _. unfold run. rewrite Hl. cbn [length Nat.ltb Nat.leb].
  rewrite Hocr, Hafter. eexists. eexists. split; [reflexivity|].
  split; [reflexivity|]. split; [|split].
  - unfold sort. rewrite <- (app_nil_r written) at 1. apply sort_fold_Permutation.
  - unfold sort. apply sort_fold_sorted. constructor.
  - intros a b x y Ha Hb. unfold ordLe, compareOrd. rewrite Ha, Hb. lia.
Qed.

Lemma fresh_run_sorted_witness :
  Forall numbered listedShards /\
  exists call files,
    run (emptyBucket listedShards) (str "b.pdf") (str "dev/json/b")
    = ([call], Resolved files) /\
    Permutation.Permutation listedShards files /\
    Sorted.StronglySorted ordLe files.
Proof.
  assert (Hn : Forall numbered listedShards).
  { repeat constructor;
      [exists 1%Z | exists 11%Z | exists 6%Z];
      (split; [vm_compute; reflexivity | reflexivity]). }
  split; [exact Hn|].
  destruct (fresh_run_sorted (emptyBucket listedShards) (str "b.pdf")
              (str "dev/json/b") (fun _ => Resolved listedShards) listedShards
              eq_refl eq_refl eq_refl Hn)
    as [call [files [Hrun [_ [Hperm [Hsorted _]]]]]].
  exists call, files. split; [exact Hrun|]. split; [exact Hperm | exact Hsorted].
Defined.

End OcrInvariants.

(** ** The paragraph reader of [src/app.ts] *)

Module AppTextToSpeechTask.

Import JS.

(** The nested array [ary] of [readOcrOuputJson]: responses, pages, blocks,
    paragraphs, words, symbol texts. *)
Definition ary (obj : OcrResult.Root)
    : list (list (list (list (list (list jsstring))))) :=
  map (fun x =>
         match OcrResult.fullTextAnnotation x with
         | Some t =>
           map (fun pg =>
                  map (fun bl =>
                         map (fun pa =>
                                map (fun w => map OcrResult.text (OcrResult.symbols w))
                                    (OcrResult.words pa))
                             (OcrResult.paragraphs bl))
                      (OcrResult.blocks pg))
               (OcrResult.pages t)
         | None => []
         end)
      (OcrResult.responses obj).

(** [ary.flat().flat().flat().map(...)]: one string per paragraph, the
    texts of its words joined. *)
Definition paragraphTexts (obj : OcrResult.Root) : list jsstring :=
  map (fun x => join (map join x)) (concat (concat (concat (ary obj)))).

(** What [readOcrOuputJson] does with the parsed document. *)
Definition sentencesOf (delimiter : jsstring) (obj : OcrResult.Root)
    : list jsstring :=
  map (fun x => if endsWith x delimiter then x else x ++ delimiter)
      (paragraphTexts obj).

Definition readOcrOuputJson (delimiter : jsstring) (env : TextToSpeechTask.Env)
    (gcsPath : jsstring) : outcome (list jsstring) :=
  match TextToSpeechTask.readOcrJson env gcsPath with
  | Resolved obj => Resolved (sentencesOf delimiter obj)
  | Rejected e => Rejected e
  end.






End AppTextToSpeechTask.

(** ** From the OCR documents to the synthesis requests *)

Module PipelineInvariants.

Import JS TextToSpeechTask ChunkPlanner SpeechSynthesisStage.

(** A fragment as [splitSentences] returns them, and a synthesis text as
    the provider accepts it. *)
Definition wellFormed (delimiter s : jsstring) : Prop :=
  s <> [] /\ endsWith s delimiter = true.

Lemma splitSentences_wellFormed (delimiter : jsstring) (obj : OcrResult.Root) :
  Forall (wellFormed delimiter) (splitSentences delimiter obj).
Proof.
  unfold splitSentences. apply Forall_forall. intros f Hf.
  apply in_map_iff in Hf as [x [<- Hx]].
  apply filter_In in Hx as [_ Hne].
  assert (Hx : x <> []) by (destruct x; [discriminate Hne | discriminate]).
  destruct (endsWith x delimiter) eqn:He; split; try assumption.
  - destruct x; [congruence | discriminate].
  - apply endsWith_app. now exists x.
Qed.

Lemma reads_wellFormed (delimiter : jsstring) (env : Env)
    (gcsPaths : list jsstring) :
  forall textsList,
    all (map (readOcrOuputJson delimiter env) gcsPaths) = Resolved textsList ->
    Forall (wellFormed delimiter) (concat textsList).
Proof.
  induction gcsPaths as [|g gcsPaths IH]; intros textsList H.
  - simpl in H. injection H as <-. constructor.
  - cbn [map all] in H. unfold readOcrOuputJson at 1 in H.
    destruct (readOcrJson env g) as [obj|e]; [|discriminate].
    destruct (all (map (readOcrOuputJson delimiter env) gcsPaths)) as [rest|e] eqn:Hrest;
      [|discriminate].
    injection H as <-. cbn [concat]. apply Forall_app. split.
    + apply splitSentences_wellFormed.
    + now apply IH.
Qed.

Lemma concat_wellFormed (delimiter : jsstring) (l : list jsstring) :
  l <> [] -> Forall (wellFormed delimiter) l -> wellFormed delimiter (concat l).
Proof.
  intros Hne Hall. induction Hall as [|a l [Ha He] Hl IH]; [congruence|].
  cbn [concat]. split.
  - destruct a; [congruence | discriminate].
  - destruct l as [|b l'].
    + cbn [concat]. now rewrite app_nil_r.
    + destruct IH as [_ IH]; [discriminate|].
      apply endsWith_app in IH as [r Hr]. apply endsWith_app.
      exists (a ++ r). rewrite Hr. now rewrite app_assoc.
Qed.

Lemma In_range (A : Type) (l : list A) (i n : nat) (x : A) :
  In x (firstn n (skipn i l)) -> In x l.
Proof.
  intros H. rewrite <- (firstn_skipn i l). apply in_or_app. right.
  rewrite <- (firstn_skipn n (skipn i l)). apply in_or_app. now left.
Qed.

Lemma Chunked_wellFormed (delimiter : jsstring) (texts : list jsstring)
    (i : nat) (jobs : list Job) :
  Forall (wellFormed delimiter) texts ->
  Chunked texts i jobs ->
  Forall (fun j => wellFormed delimiter (jobText j)) jobs.
Proof.
  intros Hall. induction 1 as [|i j job jobs Hij Hj Hjob _ IH]; constructor;
    [|exact IH].
  rewrite Hjob. unfold fragmentRange. apply concat_wellFormed.
  - intros Hnil. apply (f_equal (@length _)) in Hnil.
    rewrite length_firstn, length_skipn in Hnil. simpl in Hnil. lia.
  - apply Forall_forall. intros f Hf.
    rewrite Forall_forall in Hall. apply Hall.
    now apply (In_range _ texts i (j - i)).
Qed.

(** Every synthesis request [run] makes carries a text of 1 to
    [maxLength] code units that ends with the delimiter. *)
Theorem requests_well_formed (delimiter : jsstring) (env : Env) (fuel : nat)
    (gcsPaths : list jsstring) (outputPrefix : jsstring)
    (existFiles : list jsstring) (textsList : list (list jsstring))
    (calls : list TtsCall) (o : outcome (list jsstring)) :
  listFiles env outputPrefix = Resolved existFiles ->
  all (map (readOcrOuputJson delimiter env) gcsPaths) = Resolved textsList ->
  run delimiter env fuel gcsPaths outputPrefix = Some (calls, o) ->
  Forall (fun c => callText c <> [] /\
                   length (callText c) <= maxLength /\
                   endsWith (callText c) delimiter = true) calls.
Proof.
  intros Hl Hr Hrun.
  destruct (planJobs fuel (concat textsList) outputPrefix 0 0) as [jobs|] eqn:Hp.
  2:{ unfold run in Hrun. rewrite Hl, Hr, Hp in Hrun. discriminate. }
  rewrite (run_unfold delimiter env fuel gcsPaths outputPrefix
             existFiles textsList jobs Hl Hr Hp) in Hrun.
  injection Hrun as <- _.
  destruct (ChunkInvariants.planJobs_Some_chunked (concat textsList) outputPrefix
              fuel 0 0 jobs) as [Hch [Hbound _]]; [lia | exact Hp |].
  pose proof (Chunked_wellFormed delimiter (concat textsList) 0 jobs
                (reads_wellFormed delimiter env gcsPaths textsList Hr) Hch) as Hwf.
  destruct (SpeechInvariants.jobs_calls env existFiles jobs) as [Hframe _].
  rewrite Forall_forall in Hframe, Hwf, Hbound |- *.
  intros c Hc. destruct (Hframe c Hc) as [j [Hj [_ ->]]].
  cbn [SpeechInvariants.callOf callText].
  destruct (Hwf j Hj) as [Hne He]. split; [exact Hne|].
  split; [now apply Hbound | exact He].
Qed.

Lemma requests_well_formed_witness :
  run (str ".") (SpeechInvariants.workingEnv []) 2 [shard] prefix
  = Some ([SpeechInvariants.callOf firstJob],
          Resolved [str "dev/mp3/b/output-001.mp3"]) /\
  Forall (fun c => callText c <> [] /\
                   length (callText c) <= maxLength /\
                   endsWith (callText c) (str ".") = true)
         [SpeechInvariants.callOf firstJob].
Proof.
  assert (Hrun : run (str ".") (SpeechInvariants.workingEnv []) 2 [shard] prefix
                 = Some ([SpeechInvariants.callOf firstJob],
                         Resolved [str "dev/mp3/b/output-001.mp3"]))
    by (vm_compute; reflexivity).
  split; [exact Hrun|].
  refine (requests_well_formed (str ".") (SpeechInvariants.workingEnv []) 2 [shard]
            prefix [] [[str "Hello."; str "World."]] _ _ eq_refl _ Hrun).
  vm_compute. reflexivity.
Defined.

End PipelineInvariants.

(** ** The order of binary64 numbers *)

Module FloatOrder.

Open Scope float_scope.

(** The place of a number in the order of the binary64 values: sign class,
    then exponent, then mantissa; [None] for [NaN]. *)
Definition key (f : SpecFloat.spec_float) : option (Z * Z * Z) :=
  match f with
  | SpecFloat.S754_nan => None
  | SpecFloat.S754_infinity true => Some ((-2)%Z, 0%Z, 0%Z)
  | SpecFloat.S754_infinity false => Some (2%Z, 0%Z, 0%Z)
  | SpecFloat.S754_zero _ => Some (0%Z, 0%Z, 0%Z)
  | SpecFloat.S754_finite true m e => Some ((-1)%Z, (- e)%Z, Z.neg m)
  | SpecFloat.S754_finite false m e => Some (1%Z, e, Z.pos m)
  end.

Definition keyOf (x : float) : option (Z * Z * Z) := key (Prim2SF x).

(** Lexicographic comparison of keys. *)
Definition lexcmp (k1 k2 : Z * Z * Z) : comparison :=
  let '(a1, b1, c1) := k1 in
  let '(a2, b2, c2) := k2 in
  match (a1 ?= a2)%Z with
  | Eq => match (b1 ?= b2)%Z with
          | Eq => (c1 ?= c2)%Z
          | r => r
          end
  | r => r
  end.

Definition lexlt (k1 k2 : Z * Z * Z) : Prop :=
  let '(a1, b1, c1) := k1 in
  let '(a2, b2, c2) := k2 in
  (a1 < a2 \/ (a1 = a2 /\ (b1 < b2 \/ (b1 = b2 /\ c1 < c2))))%Z.

Definition lexle (k1 k2 : Z * Z * Z) : Prop := k1 = k2 \/ lexlt k1 k2.

Lemma lexcmp_spec (k1 k2 : Z * Z * Z) :
  CompareSpec (k1 = k2) (lexlt k1 k2) (lexlt k2 k1) (lexcmp k1 k2).
Proof.
  destruct k1 as [[a1 b1] c1], k2 as [[a2 b2] c2]. unfold lexcmp, lexlt.
  destruct (Z.compare_spec a1 a2); [|constructor; lia|constructor; lia].
  destruct (Z.compare_spec b1 b2); [|constructor; lia|constructor; lia].
  destruct (Z.compare_spec c1 c2); constructor; [congruence | lia | lia].
Qed.

Lemma SFcompare_key (f1 f2 : SpecFloat.spec_float) :
  SpecFloat.SFcompare f1 f2
  = match key f1, key f2 with
    | Some k1, Some k2 => Some (lexcmp k1 k2)
    | _, _ => None
    end.
Proof.
  destruct f1 as [s1|s1| |s1 m1 e1], f2 as [s2|s2| |s2 m2 e2];
    try destruct s1; try destruct s2; try reflexivity;
    cbn [SpecFloat.SFcompare key lexcmp].
  change (-1 ?= -1)%Z with Eq. cbv iota.
  rewrite Z.compare_opp, (Z.compare_antisym e1 e2).
  destruct (e1 ?= e2)%Z; reflexivity.
Qed.

Lemma leb_key (x y : float) :
  (x <=? y) = true <->
  exists kx ky, keyOf x = Some kx /\ keyOf y = Some ky /\ lexle kx ky.
Proof.
  rewrite leb_spec. unfold SpecFloat.SFleb, keyOf. rewrite SFcompare_key.
  destruct (key (Prim2SF x)) as [kx|], (key (Prim2SF y)) as [ky|];
    try (split; [discriminate | intros [? [? [? [? ?]]]]; discriminate]).
  unfold lexle. destruct (lexcmp_spec kx ky) as [H|H|H].
  - split; [intros _; exists kx, ky; auto | reflexivity].
  - split; [intros _; exists kx, ky; auto | reflexivity].
  - split; [discriminate|]. intros [a [b [Ha [Hb Hle]]]].
    injection Ha as <-. injection Hb as <-.
    destruct kx as [[a1 b1] c1], ky as [[a2 b2] c2]. unfold lexlt in *.
    destruct Hle as [Heq|Hlt]; [injection Heq as -> -> ->|]; lia.
Qed.


Lemma eqb_key (x y : float) :
  (x =? y) = true <-> exists k, keyOf x = Some k /\ keyOf y = Some k.
Proof.
  rewrite eqb_spec. unfold SpecFloat.SFeqb, keyOf. rewrite SFcompare_key.
  destruct (key (Prim2SF x)) as [kx|], (key (Prim2SF y)) as [ky|];
    try (split; [discriminate | intros [? [? ?]]; discriminate]).
  destruct (lexcmp_spec kx ky) as [H|H|H].
  - subst. split; [intros _; eexists; split; reflexivity | reflexivity].
  - split; [discriminate|]. intros [k [Ha Hb]].
    assert (kx = ky) by congruence. subst.
    destruct ky as [[a1 b1] c1]. unfold lexlt in *. lia.
  - split; [discriminate|]. intros [k [Ha Hb]].
    assert (kx = ky) by congruence. subst.
    destruct ky as [[a1 b1] c1]. unfold lexlt in *. lia.
Qed.

Lemma number_key (x : float) :
  is_nan x = false <-> exists k, keyOf x = Some k.
Proof.
  unfold is_nan. rewrite negb_false_iff, eqb_key. split.
  - intros [k [H _]]. now exists k.
  - intros [k H]. now exists k.
Qed.











Lemma fle_number (x y : float) :
  (x <=? y) = true -> is_nan x = false /\ is_nan y = false.
Proof.
  intros H. apply leb_key in H as [kx [ky [Hx [Hy _]]]].
  split; apply number_key; eauto.
Qed.



End FloatOrder.

(** ** The boundary rule in terms of the page's y values *)

Module BoundaryRule.

Import JS TextToSpeechTask SentenceSegmenter FloatOrder.

Open Scope float_scope.




















End BoundaryRule.
